(** * MorkDB XML output filter: escaping engine and tree writer

    A shallow embedding of [src/MorkDB/filter/output/xml.py] and the
    properties of its escaper and tree writer.

    - Text is the sequence of the ordinals of its elements ([list Z]): code
      points, or UTF-16 code units where the interpreter stores text that
      way. The patterns and [ord] work element by element in either case.
    - The two compiled patterns are values of a small regular-expression
      type; [re.sub] is a left-to-right scan into non-overlapping matches,
      one call of the replacement function per match, and a join.
    - [warnings.warn] is a writer effect: the warning is recorded and the
      call returns, which is what the default filter does.
    - The file written by [_outputHelper] lives in a store of files indexed
      by name, and holds the text written so far, before its encoding as
      UTF-8. The environment decides whether a path opens and whether a
      write goes through; a refusal is IOError. *)

From Stdlib Require Import ZArith List String Ascii Bool Lia.
From stdpp Require Import base option list gmap strings.

Local Open Scope Z_scope.

(** ** Text *)

(** A Python text value is the sequence of the ordinals of its elements,
    a [list Z]. A source literal, as code points: *)
Definition u (s : string) : list Z :=
  List.map (fun a => Z.of_N (N_of_ascii a)) (list_ascii_of_string s).

Module Ch.
Definition TAB : Z := 9.
Definition LF : Z := 10.
Definition CR : Z := 13.
Definition QUOT : Z := 34.   (* double quote *)
Definition HASH : Z := 35.
Definition AMP : Z := 38.
Definition APOS : Z := 39.   (* single quote *)
Definition SEMI : Z := 59.
Definition LT : Z := 60.
Definition GT : Z := 62.
Definition RB : Z := 93.     (* closing square bracket *)
End Ch.

(** ** Regular expressions, as far as the two patterns need them *)

Inductive regex : Type :=
| Class (ranges : list (Z * Z))   (* [...]: one element within one of the ranges *)
| Lit (s : list Z)                (* a literal run of elements *)
| Alt (r1 r2 : regex).            (* r1|r2, the left branch tried first *)

Definition in_class (ranges : list (Z * Z)) (c : Z) : bool :=
  existsb (fun r => (fst r <=? c) && (c <=? snd r)) ranges.

Fixpoint starts_with (l s : list Z) : bool :=
  match l, s with
  | [], _ => true
  | _ :: _, [] => false
  | a :: l', b :: s' => (a =? b) && starts_with l' s'
  end.

(** Length of the match of [r] at the start of [s], if there is one. *)
Fixpoint match_len (r : regex) (s : list Z) : option nat :=
  match r with
  | Class ranges =>
      match s with
      | c :: _ => if in_class ranges c then Some 1%nat else None
      | [] => None
      end
  | Lit l => if starts_with l s then Some (length l) else None
  | Alt r1 r2 =>
      match match_len r1 s with
      | Some n => Some n
      | None => match_len r2 s
      end
  end.

(** What a scan of the subject yields: the text of a match, or an element
    outside every match, which [re.sub] copies. *)
Inductive piece : Type :=
| Match (old : list Z)
| Keep (c : Z).

(** The non-overlapping matches of [re] in [s], leftmost first. [skip] counts
    the elements still covered by the match found last; the search resumes
    where that match ends. Neither pattern of this module matches the empty
    string, so a match of length zero is not a case here. *)
Fixpoint scan (re : regex) (skip : nat) (s : list Z) : list piece :=
  match s with
  | [] => []
  | c :: t =>
      match skip with
      | S k => scan re k t
      | O =>
          match match_len re s with
          | Some (S n) => Match (take (S n) s) :: scan re n t
          | _ => Keep c :: scan re 0 t
          end
      end
  end.

(** ** Effects *)

Inductive exn : Type := IOError | TypeError | ValueError.

Class Monad (M : Type -> Type) : Type := {
  ret : forall {A : Type}, A -> M A;
  bind : forall {A B : Type}, M A -> (A -> M B) -> M B;
  raise : forall {A : Type}, exn -> M A
}.

Notation "x <- m ;; k" := (bind m (fun x => k))
  (at level 100, m at next level, k at level 200, right associativity, only parsing).
Notation "m ;; k" := (bind m (fun _ => k))
  (at level 100, k at level 200, right associativity, only parsing).

Fixpoint mapM {M : Type -> Type} `{Monad M} {A B : Type}
    (f : A -> M B) (l : list A) : M (list B) :=
  match l with
  | [] => ret []
  | x :: r => y <- f x ;; ys <- mapM f r ;; ret (y :: ys)
  end.

(** [for x in l: body x] *)
Fixpoint for_each {M : Type -> Type} `{Monad M} {A : Type}
    (l : list A) (body : A -> M unit) : M unit :=
  match l with
  | [] => ret tt
  | x :: r => body x ;; for_each r body
  end.

(** The escaper's effect: a result or an exception, and the warnings issued
    on the way, oldest first. *)
Definition W (A : Type) : Type := (exn + A) * list string.

#[export] Instance W_monad : Monad W := {
  ret := fun A a => (inr a, []);
  bind := fun A B m k =>
    match m with
    | (inl e, l) => (inl e, l)
    | (inr a, l) => let r := k a in (fst r, l ++ snd r)
    end;
  raise := fun A e => (inl e, [])
}.

(** [warnings.warn(msg)], under the default filter action: the warning is
    reported and execution goes on. *)
Definition warn (msg : string) : W unit := (inr tt, [msg]).

(** [pattern.sub(repl, s)]: every match is handed to [repl], everything else
    is copied, and the parts are joined in order. *)
Definition sub (re : regex) (repl : list Z -> W (list Z)) (s : list Z) : W (list Z) :=
  parts <- mapM (fun p => match p with
                          | Match old => repl old
                          | Keep c => ret [c]
                          end) (scan re 0 s) ;;
  ret (concat parts).

(** ** The escaper *)

(** Ranges of [_non_char]: what is not in the Char production. *)
Definition _non_char : list (Z * Z) :=
  [ (0x00, 0x08); (0x0B, 0x0B); (0x0C, 0x0C); (0x0E, 0x1F);   (* control characters *)
    (0xD800, 0xDFFF);                                         (* surrogates *)
    (0xFFFE, 0xFFFE); (0xFFFF, 0xFFFF) ].                     (* permanently unassigned *)

Definition _non_att_value_matcher : regex :=
  Alt (Class _non_char)
      (Class [ (Ch.LT, Ch.LT); (Ch.AMP, Ch.AMP); (Ch.QUOT, Ch.QUOT) ]).

Definition _non_char_data_matcher : regex :=
  Alt (Class _non_char)
      (Alt (Class [ (Ch.LT, Ch.LT); (Ch.AMP, Ch.AMP) ])
           (Lit [Ch.RB; Ch.RB; Ch.GT])).

Definition _replacements : gmap (list Z) (list Z) :=
  <[ u "<" := u "&lt;" ]> (
  <[ u ">" := u "&gt;" ]> (
  <[ u "&" := u "&amp;" ]> (
  <[ [Ch.QUOT] := u "&quot;" ]> (
  <[ u "'" := u "&apos;" ]> (
  <[ u "]]>" := u "]]&gt;" ]> ∅))))).

(** [ord(s)]: defined on a text of length one only. *)
Definition ord (s : list Z) : W Z :=
  match s with
  | [c] => ret c
  | _ => raise TypeError
  end.

Definition hex_digit (d : Z) : Z := if d <? 10 then 48 + d else 87 + d.

Fixpoint hex_go (fuel : nat) (n : Z) (acc : list Z) : list Z :=
  match fuel with
  | O => acc
  | S k =>
      let acc' := hex_digit (n mod 16) :: acc in
      if n / 16 =? 0 then acc' else hex_go k (n / 16) acc'
  end.

(** ['%x' % n] for [0 <= n]: lower-case hexadecimal, no leading zero. *)
Definition format_x (n : Z) : list Z :=
  hex_go (S (Z.to_nat (Z.log2 n))) n [].

Definition invalid_xml_warning : string :=
  "found invalid XML characters; this will not be a well-formed XML document".

Definition _replacer (old : list Z) : W (list Z) :=
  match _replacements !! old with
  | Some new => ret new
  | None =>
      warn invalid_xml_warning ;;
      c <- ord old ;;
      ret (u "&#x" ++ format_x c ++ u ";")
  end.

Definition _formatAttribute (value : list Z) : W (list Z) :=
  body <- sub _non_att_value_matcher _replacer value ;;
  ret ([Ch.QUOT] ++ body ++ [Ch.QUOT]).

Definition _formatElementText (value : list Z) : W (list Z) :=
  sub _non_char_data_matcher _replacer value.

(** The escaped text of the spec's two operations: what the formatting
    functions return, an exception read as the empty text (they raise none,
    see [escaper_total]). *)
Definition text_of (m : W (list Z)) : list Z :=
  match fst m with
  | inr t => t
  | inl _ => []
  end.

Definition escapeAttributeValue (s : list Z) : list Z := text_of (_formatAttribute s).
Definition escapeCharData (s : list Z) : list Z := text_of (_formatElementText s).

(** ** The database *)

(** Modelled from the spec: the classes of [MorkDB] that the filter reads
    (database, table, row, metatable) are not part of this module; section 3
    of the specification gives their shape. Whatever the filter iterates over
    is the sequence of items in stored order; [metaTables] is looked up by
    key. *)
Definition Row : Type := list (list Z * list Z).          (* (column, value) *)
Definition RowEntry : Type := list Z * list Z * Row.      (* (namespace, id, row) *)
Definition Table : Type := list RowEntry.

Record MetaTable : Type := {
  cells : Row;
  rows : list RowEntry
}.

Record MorkDatabase : Type := {
  tables : list (list Z * list Z * Table);                (* (namespace, id, table) *)
  metaTables : gmap (list Z * list Z) MetaTable
}.

(** ** Files *)

(** A file as the filter sees it: the text written so far, before its
    encoding as UTF-8, and whether [close] has been called. *)
Record File : Type := {
  data : list Z;
  closed : bool
}.

Record World : Type := {
  files : gmap string File;
  warned : list string
}.

(** What the environment decides: whether a path can be opened for writing,
    and whether a write to it, given what it holds, goes through. *)
Record Storage : Type := {
  can_open : string -> bool;
  can_write : string -> list Z -> list Z -> bool
}.

Definition reliable (st : Storage) : Prop :=
  (forall p, can_open st p = true) /\ (forall p d t, can_write st p d t = true).

Definition IO (A : Type) : Type := World -> (exn + A) * World.

#[export] Instance IO_monad : Monad IO := {
  ret := fun A a w => (inr a, w);
  bind := fun A B m k w =>
    match m w with
    | (inl e, w') => (inl e, w')
    | (inr a, w') => k a w'
    end;
  raise := fun A e w => (inl e, w)
}.

(** A call of the escaper from the writer: its warnings join the log. *)
Definition escaping {A : Type} (m : W A) : IO A :=
  fun w => (fst m, {| files := files w; warned := warned w ++ snd m |}).

Section Writer.

Variable st : Storage.

(** [codecs.open(out, 'w', encoding='utf-8')]: the file is created or
    truncated; the handle is the path. *)
Definition codecs_open (out : string) : IO string :=
  fun w =>
    if can_open st out
    then (inr out, {| files := <[ out := {| data := []; closed := false |} ]> (files w);
                      warned := warned w |})
    else (inl IOError, w).

(** [f.write(t)] *)
Definition write (f : string) (t : list Z) : IO unit :=
  fun w =>
    match files w !! f with
    | None => (inl ValueError, w)
    | Some file =>
        if closed file then (inl ValueError, w)
        else if can_write st f (data file) t
        then (inr tt, {| files := <[ f := {| data := data file ++ t; closed := false |} ]> (files w);
                         warned := warned w |})
        else (inl IOError, w)
    end.

(** [f.close()] *)
Definition close (f : string) : IO unit :=
  fun w =>
    match files w !! f with
    | None => (inl ValueError, w)
    | Some file =>
        (inr tt, {| files := <[ f := {| data := data file; closed := true |} ]> (files w);
                    warned := warned w |})
    end.

(** [print >> f, t]: the text, then the line terminator. *)
Definition print_to (f : string) (t : list Z) : IO unit :=
  write f t ;; write f [Ch.LF].

Definition _indentStr : list Z := u "    ".

(** [s * n] *)
Definition times (s : list Z) (n : nat) : list Z := concat (replicate n s).

Definition _writeCell (f : string) (column value : list Z) (indent : nat) : IO unit :=
  let indentStr := times _indentStr indent in
  a <- escaping (_formatAttribute column) ;;
  t <- escaping (_formatElementText value) ;;
  print_to f (indentStr ++ u "<cell column=" ++ a ++ u ">" ++ t ++ u "</cell>").

Definition _writeRow (f : string) (namespace oid : list Z) (row : Row) (indent : nat) : IO unit :=
  let indentStr := times _indentStr indent in
  ns <- escaping (_formatAttribute namespace) ;;
  id <- escaping (_formatAttribute oid) ;;
  print_to f (indentStr ++ u "<row namespace=" ++ ns ++ u " id=" ++ id ++ u ">") ;;
  for_each row (fun cv => _writeCell f (fst cv) (snd cv) (indent + 1)) ;;
  print_to f (indentStr ++ u "</row>").

Definition _writeMetaTable (f : string) (meta : MetaTable) (indent : nat) : IO unit :=
  let indentStr := times _indentStr indent in
  print_to f (indentStr ++ u "<metatable>") ;;
  for_each (cells meta) (fun cv => _writeCell f (fst cv) (snd cv) (indent + 1)) ;;
  for_each (rows meta) (fun r => _writeRow f (fst (fst r)) (snd (fst r)) (snd r) (indent + 1)) ;;
  print_to f (indentStr ++ u "</metatable>").

Definition _writeTable (f : string) (namespace oid : list Z) (table : Table)
    (meta : option MetaTable) (indent : nat) : IO unit :=
  let indentStr := times _indentStr indent in
  ns <- escaping (_formatAttribute namespace) ;;
  id <- escaping (_formatAttribute oid) ;;
  print_to f (indentStr ++ u "<table namespace=" ++ ns ++ u " id=" ++ id ++ u ">") ;;
  for_each table (fun r => _writeRow f (fst (fst r)) (snd (fst r)) (snd r) (indent + 1)) ;;
  match meta with
  | Some m => _writeMetaTable f m (indent + 1)
  | None => ret tt
  end ;;
  print_to f (indentStr ++ u "</table>").

(** [out] is [None] when the caller leaves the argument out; [_writeTable]
    is called without [indent], which is then 1. *)
Definition _outputHelper (db : MorkDatabase) (out : option string) : IO unit :=
  let out := default "mork.xml"%string out in
  f <- codecs_open out ;;
  print_to f (u "<?xml version=" ++ [Ch.QUOT] ++ u "1.0" ++ [Ch.QUOT]
              ++ u " encoding=" ++ [Ch.QUOT] ++ u "UTF-8" ++ [Ch.QUOT] ++ u " ?>") ;;
  print_to f (u "<morkxml>") ;;
  for_each (tables db) (fun t =>
    let namespace := fst (fst t) in
    let oid := snd (fst t) in
    let meta := metaTables db !! (namespace, oid) in
    _writeTable f namespace oid (snd t) meta 1) ;;
  print_to f (u "</morkxml>") ;;
  close f.

End Writer.

(** ** Vocabulary of the properties *)

(** The elements each pattern matches on their own, and the one sequence
    the character-data pattern matches. *)
Definition att_special (c : Z) : bool :=
  in_class _non_char c || (c =? Ch.LT) || (c =? Ch.AMP) || (c =? Ch.QUOT).

Definition cd_special (c : Z) : bool :=
  in_class _non_char c || (c =? Ch.LT) || (c =? Ch.AMP).

Definition cdend : list Z := [Ch.RB; Ch.RB; Ch.GT].

(** What [sub] puts in the place of a piece of the scan, and the warnings
    that costs. *)
Definition piece_text (p : piece) : list Z :=
  match p with
  | Match old => text_of (_replacer old)
  | Keep c => [c]
  end.

Definition piece_warnings (p : piece) : list string :=
  match p with
  | Match old => snd (_replacer old)
  | Keep _ => []
  end.

Definition piece_ok (p : piece) : Prop :=
  match p with
  | Match old => exists t, fst (_replacer old) = inr t
  | Keep _ => True
  end.

(** Hexadecimal digits as ['%x'] writes them, and the number they denote. *)
Definition is_hex_digit (c : Z) : bool :=
  (48 <=? c) && (c <=? 57) || (97 <=? c) && (c <=? 102).

Definition hex_digit_value (c : Z) : Z := if c <? 58 then c - 48 else c - 87.

Definition hex_value (h : list Z) : Z :=
  fold_left (fun acc c => 16 * acc + hex_digit_value c) h 0.

(** The Char production of XML 1.0:
    [#x9 | #xA | #xD | [#x20-#xD7FF] | [#xE000-#xFFFD] | [#x10000-#x10FFFF]]. *)
Definition xml_char (c : Z) : bool :=
  (c =? 0x9) || (c =? 0xA) || (c =? 0xD)
  || (0x20 <=? c) && (c <=? 0xD7FF)
  || (0xE000 <=? c) && (c <=? 0xFFFD)
  || (0x10000 <=? c) && (c <=? 0x10FFFF).

(** What may follow an ampersand in escaped text: a name of the replacement
    table or [#x] and hexadecimal digits, closed by a semicolon. *)
Inductive reference : list Z -> Prop :=
| entity_ref (name : list Z) :
    In name [u "lt"; u "gt"; u "amp"; u "quot"; u "apos"] ->
    reference (name ++ [Ch.SEMI])
| char_ref (h : list Z) :
    h <> [] -> forallb is_hex_digit h = true ->
    reference (u "#x" ++ h ++ [Ch.SEMI]).


(** [pat] occurs in [t] as a run of consecutive elements. *)
Definition occurs (pat t : list Z) : Prop := exists p q, t = p ++ pat ++ q.

(** The escaped text of a subject, quotes apart: the join of what replaces
    the pieces of its scan. *)
Definition att_body (s : list Z) : list Z :=
  concat (List.map piece_text (scan _non_att_value_matcher 0 s)).

Definition cd_body (s : list Z) : list Z :=
  concat (List.map piece_text (scan _non_char_data_matcher 0 s)).

Definition att_warnings (s : list Z) : list string :=
  concat (List.map piece_warnings (scan _non_att_value_matcher 0 s)).

Definition cd_warnings (s : list Z) : list string :=
  concat (List.map piece_warnings (scan _non_char_data_matcher 0 s)).

(** The elements a reference is made of, after its ampersand. *)
Definition ref_alpha (c : Z) : bool :=
  (c =? Ch.HASH) || (c =? Ch.SEMI)
  || (48 <=? c) && (c <=? 57) || (97 <=? c) && (c <=? 122).

(** A match of the character-data pattern lies across the border between
    [s1] and [s2]. *)
Definition straddles (s1 s2 : list Z) : Prop :=
  (exists p q, s1 = p ++ [Ch.RB; Ch.RB] /\ s2 = Ch.GT :: q) \/
  (exists p q, s1 = p ++ [Ch.RB] /\ s2 = Ch.RB :: Ch.GT :: q).

(** The four elements that are reserved in one context or the other. *)
Definition reserved (c : Z) : bool :=
  (c =? Ch.LT) || (c =? Ch.AMP) || (c =? Ch.QUOT) || (c =? Ch.APOS).

(** ** The document, line by line *)

(** The tree writer as section 4.2 of the specification words it: every tag
    on a line of its own behind four spaces per level, a cell on one line;
    within a table the rows and then the metatable, within a metatable the
    cells and then the rows. *)
Definition unlines (ls : list (list Z)) : list Z :=
  concat (List.map (fun l => l ++ [Ch.LF]) ls).

Definition indentation (depth : nat) : list Z := times (u "    ") depth.

Definition cell_line (depth : nat) (cv : list Z * list Z) : list Z :=
  indentation depth ++ u "<cell column=" ++ escapeAttributeValue (fst cv)
  ++ u ">" ++ escapeCharData (snd cv) ++ u "</cell>".

Definition row_lines (depth : nat) (r : RowEntry) : list (list Z) :=
  [indentation depth ++ u "<row namespace=" ++ escapeAttributeValue (fst (fst r))
   ++ u " id=" ++ escapeAttributeValue (snd (fst r)) ++ u ">"]
  ++ List.map (cell_line (depth + 1)) (snd r)
  ++ [indentation depth ++ u "</row>"].

Definition metatable_lines (depth : nat) (meta : MetaTable) : list (list Z) :=
  [indentation depth ++ u "<metatable>"]
  ++ List.map (cell_line (depth + 1)) (cells meta)
  ++ concat (List.map (row_lines (depth + 1)) (rows meta))
  ++ [indentation depth ++ u "</metatable>"].

Definition table_lines (depth : nat) (namespace oid : list Z) (table : Table)
    (meta : option MetaTable) : list (list Z) :=
  [indentation depth ++ u "<table namespace=" ++ escapeAttributeValue namespace
   ++ u " id=" ++ escapeAttributeValue oid ++ u ">"]
  ++ concat (List.map (row_lines (depth + 1)) table)
  ++ match meta with
     | Some m => metatable_lines (depth + 1) m
     | None => []
     end
  ++ [indentation depth ++ u "</table>"].

Definition xml_declaration : list Z :=
  u "<?xml version=" ++ [Ch.QUOT] ++ u "1.0" ++ [Ch.QUOT]
  ++ u " encoding=" ++ [Ch.QUOT] ++ u "UTF-8" ++ [Ch.QUOT] ++ u " ?>".

Definition document_lines (db : MorkDatabase) : list (list Z) :=
  [xml_declaration; u "<morkxml>"]
  ++ concat (List.map (fun t =>
       table_lines 1 (fst (fst t)) (snd (fst t)) (snd t)
                   (metaTables db !! (fst (fst t), snd (fst t)))) (tables db))
  ++ [u "</morkxml>"].

(** The warnings a document costs, in the order the writer meets them. *)
Definition cell_warnings (cv : list Z * list Z) : list string :=
  att_warnings (fst cv) ++ cd_warnings (snd cv).

Definition row_warnings (r : RowEntry) : list string :=
  att_warnings (fst (fst r)) ++ att_warnings (snd (fst r))
  ++ concat (List.map cell_warnings (snd r)).

Definition metatable_warnings (meta : MetaTable) : list string :=
  concat (List.map cell_warnings (cells meta))
  ++ concat (List.map row_warnings (rows meta)).

Definition table_warnings (namespace oid : list Z) (table : Table)
    (meta : option MetaTable) : list string :=
  att_warnings namespace ++ att_warnings oid
  ++ concat (List.map row_warnings table)
  ++ match meta with
     | Some m => metatable_warnings m
     | None => []
     end.

Definition document_warnings (db : MorkDatabase) : list string :=
  concat (List.map (fun t =>
    table_warnings (fst (fst t)) (snd (fst t)) (snd t)
                   (metaTables db !! (fst (fst t), snd (fst t)))) (tables db)).

(** A world in which [f] is open and holds [d]. *)
Definition opened (m : gmap string File) (f : string) (d : list Z)
    (log : list string) : World :=
  {| files := <[ f := {| data := d; closed := false |} ]> m; warned := log |}.



(** A literal in which an apostrophe stands for a double quote. *)
Definition dq (s : string) : list Z :=
  List.map (fun c => if c =? Ch.APOS then Ch.QUOT else c) (u s).

(** The database of the example of section 8: one table, one row, one cell,
    no metatable. *)
Definition example_db : MorkDatabase :=
  {| tables := [ (u "ns1", u "1", [ (u "ns1", u "r1", [ (u "Name", u "A & B") ]) ]) ];
     metaTables := ∅ |}.

Definition example_xml : list Z :=
  unlines [ dq "<?xml version='1.0' encoding='UTF-8' ?>";
            dq "<morkxml>";
            dq "    <table namespace='ns1' id='1'>";
            dq "        <row namespace='ns1' id='r1'>";
            dq "            <cell column='Name'>A &amp; B</cell>";
            dq "        </row>";
            dq "    </table>";
            dq "</morkxml>" ].

(** A sink that takes everything, and one that opens and then takes
    nothing. *)
Definition sound_storage : Storage :=
  {| can_open := fun _ => true; can_write := fun _ _ _ => true |}.



Definition empty_world : World := {| files := ∅; warned := [] |}.

(** Two tables: the first with two rows and a metatable of one cell and one
    row, the second empty and without a metatable. *)
Definition sample_db : MorkDatabase :=
  {| tables :=
       [ (u "ns", u "T1", [ (u "ns", u "r1", [ (u "a", u "1"); (u "b", u "2") ]);
                            (u "ns", u "r2", [ (u "a", u "3") ]) ]);
         (u "ns", u "T2", []) ];
     metaTables :=
       {[ (u "ns", u "T1") := {| cells := [ (u "k", u "v") ];
                                 rows := [ (u "m", u "r3", [ (u "c", u "4") ]) ] |} ]} |}.

(** ** Further vocabulary *)

(** One warning for each element of [s] that is in [_non_char]. *)
Definition illegal_warnings (s : list Z) : list string :=
  replicate (length (List.filter (in_class _non_char) s)) invalid_xml_warning.

(** What escaping does to text that holds no [<], no double quote, no
    illegal element and no [cdend]: it rewrites the ampersands. *)
Definition ampersands_escaped (t : list Z) : list Z :=
  flat_map (fun c => if c =? Ch.AMP then u "&amp;" else [c]) t.

(** What stands between the ampersand and the semicolon in the replacement
    of a single matched element. *)
Definition special_name (c : Z) : list Z :=
  if in_class _non_char c then u "#x" ++ format_x c
  else if c =? Ch.LT then u "lt"
  else if c =? Ch.AMP then u "amp"
  else u "quot".

(** [m] touches no file but [f], and only adds to the warnings. *)
Definition confined {A : Type} (f : string) (m : IO A) : Prop :=
  forall w,
    (forall p, p <> f -> files (snd (m w)) !! p = files w !! p) /\
    exists ws, warned (snd (m w)) = warned w ++ ws.

(** [m], started with [f] open, appends [T] to it and leaves it open, or
    closed if [c] is set; or it raises IOError, and then what it has
    appended is the beginning of [T], and [f] is open. *)
Definition appends {A : Type} (f : string) (m : IO A) (T : list Z) (c : bool) : Prop :=
  forall w d, files w !! f = Some {| data := d; closed := false |} ->
    match m w with
    | (inr _, w') => files w' !! f = Some {| data := d ++ T; closed := c |}
    | (inl e, w') =>
        e = IOError /\
        exists P k, T = P ++ k /\ files w' !! f = Some {| data := d ++ P; closed := false |}
    end.

(** [sample_db] with a metatable more, under a key that no table has. *)
Definition sample_db_with_orphan : MorkDatabase :=
  {| tables := tables sample_db;
     metaTables := <[ (u "ns", u "T9") := {| cells := [ (u "x", u "y") ]; rows := [] |} ]>
                     (metaTables sample_db) |}.

(** No line feed in any text of a row, or of the database as far as it is
    written. *)
Definition cell_has_no_line_feed (cv : list Z * list Z) : Prop :=
  ~ In Ch.LF (fst cv) /\ ~ In Ch.LF (snd cv).

Definition row_has_no_line_feed (r : RowEntry) : Prop :=
  ~ In Ch.LF (fst (fst r)) /\ ~ In Ch.LF (snd (fst r)) /\
  Forall cell_has_no_line_feed (snd r).

Definition metatable_has_no_line_feed (meta : option MetaTable) : Prop :=
  match meta with
  | Some m => Forall cell_has_no_line_feed (cells m) /\ Forall row_has_no_line_feed (rows m)
  | None => True
  end.

Definition has_no_line_feed (db : MorkDatabase) : Prop :=
  Forall (fun t =>
    ~ In Ch.LF (fst (fst t)) /\ ~ In Ch.LF (snd (fst t)) /\
    Forall row_has_no_line_feed (snd t) /\
    metatable_has_no_line_feed (metaTables db !! (fst (fst t), snd (fst t))))
    (tables db).

(** [l] begins with the indent of [depth]. *)
Definition indented (depth : nat) (l : list Z) : Prop :=
  exists r, l = times _indentStr depth ++ r.

(** ** One pass, element by element *)

(** What follows is written from the words of section 4.1 of the
    specification, not from the patterns and [sub]: it is what the
    formatting functions are compared with. It parts from those words in
    one place, the apostrophe, which [attribute_pass] copies.

    The illegal characters, by the code points the specification lists:
    U+0000 to U+0008, U+000B, U+000C, U+000E to U+001F, the surrogates
    U+D800 to U+DFFF, U+FFFE and U+FFFF. *)
Definition illegal (c : Z) : bool :=
  (0x0 <=? c) && (c <=? 0x8) || (c =? 0xB) || (c =? 0xC)
  || (0xE <=? c) && (c <=? 0x1F)
  || (0xD800 <=? c) && (c <=? 0xDFFF)
  || (c =? 0xFFFE) || (c =? 0xFFFF).

(** The numeric character reference of [c]. *)
Definition numeric_reference (c : Z) : list Z := u "&#x" ++ format_x c ++ u ";".

(** A single pass over an attribute value: every element of the subject is
    looked at once, from left to right, and what is written for it is never
    looked at again. An illegal element gives its numeric reference; [<],
    [&] and the double quote give their named references; every other
    element, the apostrophe among them, is copied. *)
Definition attribute_pass (s : list Z) : list Z :=
  flat_map (fun c =>
    if illegal c then numeric_reference c
    else if c =? Ch.LT then u "&lt;"
    else if c =? Ch.AMP then u "&amp;"
    else if c =? Ch.QUOT then u "&quot;"
    else [c]) s.

(** A single pass over character data: the same, with the double quote
    copied, and with a closing bracket that opens the three elements [cdend]
    taken together with the two that follow it. *)
Fixpoint character_data_pass (s : list Z) : list Z :=
  match s with
  | [] => []
  | c :: t =>
      if illegal c then numeric_reference c ++ character_data_pass t
      else if c =? Ch.LT then u "&lt;" ++ character_data_pass t
      else if c =? Ch.AMP then u "&amp;" ++ character_data_pass t
      else
        match t with
        | c2 :: c3 :: t' =>
            if (c =? Ch.RB) && (c2 =? Ch.RB) && (c3 =? Ch.GT)
            then u "]]&gt;" ++ character_data_pass t'
            else c :: character_data_pass t
        | _ => c :: character_data_pass t
        end
  end.

(** The warnings of a pass: one for each illegal element, in order. *)
Definition pass_warnings (s : list Z) : list string :=
  flat_map (fun c => if illegal c then [invalid_xml_warning] else []) s.

(** Every line of the text [T] begins with the indent of [depth]: the text
    does, and so does what follows each line feed that is not its last
    element. *)
Definition lines_indented (depth : nat) (T : list Z) : Prop :=
  indented depth T /\
  forall p q, T = p ++ Ch.LF :: q -> q <> [] -> indented depth q.

(** * Properties of the escaper *)

Lemma replacements_single (c : Z) :
  _replacements !! [c] =
    if c =? Ch.LT then Some (u "&lt;")
    else if c =? Ch.GT then Some (u "&gt;")
    else if c =? Ch.AMP then Some (u "&amp;")
    else if c =? Ch.QUOT then Some (u "&quot;")
    else if c =? Ch.APOS then Some (u "&apos;")
    else None.
Proof.
  unfold _replacements.
  change (u "<") with [Ch.LT]. change (u ">") with [Ch.GT].
  change (u "&") with [Ch.AMP]. change (u "'") with [Ch.APOS].
  destruct (Z.eqb_spec c Ch.LT) as [->|?]; [ by rewrite lookup_insert_eq |].
  rewrite lookup_insert_ne by congruence.
  destruct (Z.eqb_spec c Ch.GT) as [->|?]; [ by rewrite lookup_insert_eq |].
  rewrite lookup_insert_ne by congruence.
  destruct (Z.eqb_spec c Ch.AMP) as [->|?]; [ by rewrite lookup_insert_eq |].
  rewrite lookup_insert_ne by congruence.
  destruct (Z.eqb_spec c Ch.QUOT) as [->|?]; [ by rewrite lookup_insert_eq |].
  rewrite lookup_insert_ne by congruence.
  destruct (Z.eqb_spec c Ch.APOS) as [->|?]; [ by rewrite lookup_insert_eq |].
  rewrite lookup_insert_ne by congruence.
  rewrite lookup_insert_ne by discriminate.
  apply lookup_empty.
Qed.

Lemma replacements_cdend : _replacements !! [Ch.RB; Ch.RB; Ch.GT] = Some (u "]]&gt;").
Proof.
  unfold _replacements.
  change (u "<") with [Ch.LT]. change (u ">") with [Ch.GT].
  change (u "&") with [Ch.AMP]. change (u "'") with [Ch.APOS].
  change (u "]]>") with [Ch.RB; Ch.RB; Ch.GT].
  rewrite !lookup_insert_ne by discriminate.
  apply lookup_insert_eq.
Qed.

Lemma non_char_spec (c : Z) :
  in_class _non_char c = true <->
  (0 <= c <= 8 \/ c = 11 \/ c = 12 \/ 14 <= c <= 31 \/
   0xD800 <= c <= 0xDFFF \/ c = 0xFFFE \/ c = 0xFFFF).
Proof.
  unfold in_class, _non_char. cbn [existsb fst snd].
  rewrite !orb_true_iff, !andb_true_iff, !Z.leb_le. cbv [is_true]. lia.
Qed.

Lemma range_point (a c : Z) : (a <=? c) && (c <=? a) = (c =? a).
Proof.
  destruct (Z.eqb_spec c a) as [->|Hne].
  - by rewrite Z.leb_refl.
  - destruct (Z.leb_spec a c), (Z.leb_spec c a); simpl; try reflexivity; lia.
Qed.

Lemma match_len_att (c : Z) (t : list Z) :
  match_len _non_att_value_matcher (c :: t) = if att_special c then Some 1%nat else None.
Proof.
  unfold _non_att_value_matcher, att_special. cbn [match_len].
  destruct (in_class _non_char c); [reflexivity|].
  unfold in_class. cbn [existsb fst snd orb].
  by rewrite !range_point, orb_false_r, orb_assoc.
Qed.

Lemma match_len_cd (c : Z) (t : list Z) :
  match_len _non_char_data_matcher (c :: t) =
    if cd_special c then Some 1%nat
    else if starts_with cdend (c :: t) then Some 3%nat else None.
Proof.
  unfold _non_char_data_matcher, cd_special. cbn [match_len].
  destruct (in_class _non_char c); [reflexivity|].
  unfold in_class. cbn [existsb fst snd orb].
  rewrite !range_point, orb_false_r.
  destruct ((c =? Ch.LT) || (c =? Ch.AMP)); reflexivity.
Qed.

Lemma scan_att (s : list Z) :
  scan _non_att_value_matcher 0 s =
    List.map (fun c => if att_special c then Match [c] else Keep c) s.
Proof.
  induction s as [|c t IH]; [reflexivity|].
  cbn [scan List.map]. rewrite match_len_att.
  destruct (att_special c); cbn [take]; by rewrite IH.
Qed.

Lemma starts_with_cdend (s : list Z) :
  starts_with cdend s = true <-> exists t, s = cdend ++ t.
Proof.
  unfold cdend. split.
  - intros H. destruct s as [|a [|b [|c t]]]; cbn [starts_with] in H;
      rewrite ?andb_true_iff, ?Z.eqb_eq in H; try (intuition discriminate).
    destruct H as (<- & <- & <- & _). by exists t.
  - intros [t ->]. reflexivity.
Qed.

Lemma scan_cd_special (c : Z) (t : list Z) :
  cd_special c = true ->
  scan _non_char_data_matcher 0 (c :: t) = Match [c] :: scan _non_char_data_matcher 0 t.
Proof. intros H. cbn [scan]. by rewrite match_len_cd, H. Qed.

Lemma scan_cd_cdend (t : list Z) :
  scan _non_char_data_matcher 0 (cdend ++ t) = Match cdend :: scan _non_char_data_matcher 0 t.
Proof.
  unfold cdend. cbn [app scan]. rewrite match_len_cd.
  replace (cd_special Ch.RB) with false by reflexivity.
  reflexivity.
Qed.

Lemma scan_cd_keep (c : Z) (t : list Z) :
  cd_special c = false -> starts_with cdend (c :: t) = false ->
  scan _non_char_data_matcher 0 (c :: t) = Keep c :: scan _non_char_data_matcher 0 t.
Proof. intros H1 H2. cbn [scan]. by rewrite match_len_cd, H1, H2. Qed.

(** Induction along the scan of character data. *)
Lemma cd_scan_ind (P : list Z -> Prop) :
  P [] ->
  (forall c t, cd_special c = true -> P t -> P (c :: t)) ->
  (forall t, P t -> P (cdend ++ t)) ->
  (forall c t, cd_special c = false -> starts_with cdend (c :: t) = false -> P t -> P (c :: t)) ->
  forall s, P s.
Proof.
  intros Hnil Hsp Hend Hkeep s.
  assert (H : forall n (s : list Z), (length s <= n)%nat -> P s).
  { clear s. induction n as [|n IH]; intros s Hs.
    - destruct s; [exact Hnil | simpl in Hs; lia].
    - destruct s as [|c t]; [exact Hnil|]. simpl in Hs.
      destruct (cd_special c) eqn:Ec.
      + apply Hsp; [exact Ec | apply IH; lia].
      + destruct (starts_with cdend (c :: t)) eqn:Es.
        * apply starts_with_cdend in Es as [t' Ht']. rewrite Ht'. apply Hend.
          apply IH. apply (f_equal (@length Z)) in Ht'. simpl in Ht'. lia.
        * apply Hkeep; [exact Ec | exact Es | apply IH; lia]. }
  by apply (H (length s)).
Qed.

(** ** [_replacer] *)

Lemma replacer_single (c : Z) :
  _replacer [c] =
    match _replacements !! [c] with
    | Some new => (inr new, [])
    | None => (inr (u "&#x" ++ format_x c ++ u ";"), [invalid_xml_warning])
    end.
Proof. unfold _replacer. destruct (_replacements !! [c]); reflexivity. Qed.

Lemma replacer_cdend : _replacer cdend = (inr (u "]]&gt;"), []).
Proof. unfold _replacer, cdend. by rewrite replacements_cdend. Qed.

Lemma replacer_non_char (c : Z) :
  in_class _non_char c = true ->
  _replacer [c] = (inr (u "&#x" ++ format_x c ++ u ";"), [invalid_xml_warning]).
Proof.
  intros H. rewrite replacer_single, replacements_single.
  apply non_char_spec in H.
  assert (Hne : c <> Ch.LT /\ c <> Ch.GT /\ c <> Ch.AMP /\ c <> Ch.QUOT /\ c <> Ch.APOS)
    by (unfold Ch.LT, Ch.GT, Ch.AMP, Ch.QUOT, Ch.APOS; lia).
  destruct Hne as (H1 & H2 & H3 & H4 & H5).
  apply Z.eqb_neq in H1, H2, H3, H4, H5.
  by rewrite H1, H2, H3, H4, H5.
Qed.

Lemma replacer_LT : _replacer [Ch.LT] = (inr (u "&lt;"), []).
Proof. by rewrite replacer_single, replacements_single. Qed.

Lemma replacer_AMP : _replacer [Ch.AMP] = (inr (u "&amp;"), []).
Proof. by rewrite replacer_single, replacements_single. Qed.

Lemma replacer_QUOT : _replacer [Ch.QUOT] = (inr (u "&quot;"), []).
Proof. by rewrite replacer_single, replacements_single. Qed.

(** The three shapes of a replacement of a match of either pattern. *)
Lemma replacer_att_special (c : Z) :
  att_special c = true ->
  (in_class _non_char c = true /\
     _replacer [c] = (inr (u "&#x" ++ format_x c ++ u ";"), [invalid_xml_warning])) \/
  (in_class _non_char c = false /\
     exists name, In name [u "lt"; u "amp"; u "quot"] /\
       _replacer [c] = (inr ([Ch.AMP] ++ name ++ [Ch.SEMI]), [])).
Proof.
  unfold att_special. intros H.
  destruct (in_class _non_char c) eqn:En.
  - left. split; [reflexivity | by apply replacer_non_char].
  - right. split; [reflexivity|]. cbn [orb] in H.
    rewrite !orb_true_iff, !Z.eqb_eq in H. destruct H as [[-> | ->] | ->].
    + exists (u "lt"). split; [cbn; tauto | exact replacer_LT].
    + exists (u "amp"). split; [cbn; tauto | exact replacer_AMP].
    + exists (u "quot"). split; [cbn; tauto | exact replacer_QUOT].
Qed.

Lemma cd_special_att (c : Z) : cd_special c = true -> att_special c = true.
Proof. unfold cd_special, att_special. intros ->. reflexivity. Qed.

(** ** [sub] with [_replacer] *)

Lemma mapM_replacer (ps : list piece) :
  Forall piece_ok ps ->
  mapM (fun p => match p with
                 | Match old => _replacer old
                 | Keep c => ret [c]
                 end) ps
  = (inr (List.map piece_text ps), concat (List.map piece_warnings ps)).
Proof.
  induction 1 as [|p ps Hp _ IH]; [reflexivity|].
  cbn [mapM List.map concat]. rewrite IH. clear IH.
  destruct p as [old|c].
  - destruct Hp as [t Ht]. unfold piece_text, piece_warnings, text_of.
    destruct (_replacer old) as [[e|t'] ws]; cbn in Ht; [discriminate|].
    cbn. by rewrite app_nil_r.
  - cbn. by rewrite app_nil_r.
Qed.

Lemma sub_replacer (re : regex) (s : list Z) :
  Forall piece_ok (scan re 0 s) ->
  sub re _replacer s
  = (inr (concat (List.map piece_text (scan re 0 s))),
     concat (List.map piece_warnings (scan re 0 s))).
Proof.
  intros H. unfold sub. cbn [bind W_monad]. rewrite (mapM_replacer _ H).
  cbn. by rewrite app_nil_r.
Qed.

Lemma att_pieces_ok (s : list Z) : Forall piece_ok (scan _non_att_value_matcher 0 s).
Proof.
  rewrite scan_att. induction s as [|c t IH]; constructor; [|exact IH].
  destruct (att_special c) eqn:E; [|exact I]. cbn [piece_ok].
  destruct (replacer_att_special c E) as [[_ ->] | [_ (name & _ & ->)]]; by eexists.
Qed.

Lemma cd_pieces_ok (s : list Z) : Forall piece_ok (scan _non_char_data_matcher 0 s).
Proof.
  induction s as [| c t Hc IH | t IH | c t Hc Hs IH] using cd_scan_ind.
  - constructor.
  - rewrite scan_cd_special by exact Hc. constructor; [|exact IH]. cbn [piece_ok].
    destruct (replacer_att_special c (cd_special_att c Hc)) as [[_ ->] | [_ (name & _ & ->)]];
      by eexists.
  - rewrite scan_cd_cdend. constructor; [|exact IH].
    cbn. rewrite replacer_cdend. by eexists.
  - rewrite scan_cd_keep by assumption. constructor; [exact I | exact IH].
Qed.

Lemma formatAttribute_run (s : list Z) :
  _formatAttribute s
  = (inr ([Ch.QUOT] ++ concat (List.map piece_text (scan _non_att_value_matcher 0 s)) ++ [Ch.QUOT]),
     concat (List.map piece_warnings (scan _non_att_value_matcher 0 s))).
Proof.
  unfold _formatAttribute. cbn [bind W_monad].
  rewrite (sub_replacer _ _ (att_pieces_ok s)). cbn. by rewrite app_nil_r.
Qed.

Lemma formatElementText_run (s : list Z) :
  _formatElementText s
  = (inr (concat (List.map piece_text (scan _non_char_data_matcher 0 s))),
     concat (List.map piece_warnings (scan _non_char_data_matcher 0 s))).
Proof. unfold _formatElementText. apply sub_replacer, cd_pieces_ok. Qed.

(** Neither formatting function raises. *)
Lemma escaper_total (s : list Z) :
  (exists t ws, _formatAttribute s = (inr t, ws)) /\
  (exists t ws, _formatElementText s = (inr t, ws)).
Proof.
  split; do 2 eexists; [apply formatAttribute_run | apply formatElementText_run].
Qed.

(** ** ['%x'] *)

Lemma hex_digit_ok (d : Z) :
  0 <= d < 16 -> is_hex_digit (hex_digit d) = true /\ hex_digit_value (hex_digit d) = d.
Proof.
  intros Hd. unfold is_hex_digit, hex_digit_value, hex_digit.
  destruct (Z.ltb_spec d 10).
  - split.
    + apply orb_true_iff. left. apply andb_true_iff. split; apply Z.leb_le; lia.
    + destruct (Z.ltb_spec (48 + d) 58); lia.
  - split.
    + apply orb_true_iff. right. apply andb_true_iff. split; apply Z.leb_le; lia.
    + destruct (Z.ltb_spec (87 + d) 58); lia.
Qed.

Lemma hex_value_snoc (h : list Z) (c : Z) :
  hex_value (h ++ [c]) = 16 * hex_value h + hex_digit_value c.
Proof. unfold hex_value. by rewrite fold_left_app. Qed.

Lemma hex_go_S (k : nat) (n : Z) (acc : list Z) :
  hex_go (S k) n acc =
    if n / 16 =? 0 then hex_digit (n mod 16) :: acc
    else hex_go k (n / 16) (hex_digit (n mod 16) :: acc).
Proof. reflexivity. Qed.

Lemma hex_go_digits (k : nat) :
  forall n acc, 0 <= n < 2 ^ Z.of_nat (S k) ->
  exists h, hex_go (S k) n acc = h ++ acc /\ h <> [] /\
            forallb is_hex_digit h = true /\ hex_value h = n.
Proof.
  induction k as [|k IH]; intros n acc Hn.
  - assert (Hq : n / 16 = 0) by (apply Z.div_small; cbn in Hn; lia).
    assert (Hm : n mod 16 = n) by (apply Z.mod_small; cbn in Hn; lia).
    rewrite hex_go_S, Hq, Hm. cbn [Z.eqb].
    destruct (hex_digit_ok n) as [H1 H2]; [cbn in Hn; lia|].
    exists [hex_digit n]. repeat split; [discriminate | by cbn; rewrite H1 |].
    unfold hex_value. cbn. lia.
  - rewrite hex_go_S. pose proof (Z.mod_pos_bound n 16 ltac:(lia)) as Hm.
    destruct (hex_digit_ok (n mod 16) Hm) as [H1 H2].
    destruct (Z.eqb_spec (n / 16) 0) as [Hq|Hq].
    + exists [hex_digit (n mod 16)]. repeat split; [discriminate | by cbn; rewrite H1 |].
      unfold hex_value. cbn. rewrite H2.
      pose proof (Z.div_mod n 16 ltac:(lia)). lia.
    + destruct (IH (n / 16) (hex_digit (n mod 16) :: acc)) as (h & Hh & Hne & Hall & Hv).
      { split; [apply Z.div_pos; lia|].
        apply Z.div_lt_upper_bound; [lia|].
        rewrite (Nat2Z.inj_succ (S k)), Z.pow_succ_r in Hn by lia. lia. }
      exists (h ++ [hex_digit (n mod 16)]). repeat split.
      * rewrite Hh. by rewrite <- app_assoc.
      * destruct h; discriminate.
      * rewrite forallb_app, Hall. cbn. by rewrite H1.
      * rewrite hex_value_snoc, Hv, H2.
        pose proof (Z.div_mod n 16 ltac:(lia)). lia.
Qed.

Lemma format_x_digits (n : Z) :
  0 <= n ->
  format_x n <> [] /\ forallb is_hex_digit (format_x n) = true /\ hex_value (format_x n) = n.
Proof.
  intros Hn. unfold format_x.
  destruct (hex_go_digits (Z.to_nat (Z.log2 n)) n []) as (h & Hh & Hne & Hall & Hv).
  - split; [exact Hn|].
    rewrite Nat2Z.inj_succ, Z2Nat.id by apply Z.log2_nonneg.
    destruct (Z.eq_dec n 0) as [->|Hz]; [reflexivity|].
    apply Z.log2_spec. lia.
  - rewrite Hh, app_nil_r. auto.
Qed.

Lemma non_char_xml_char (c : Z) :
  in_class _non_char c = true <-> (0 <= c <= 0x10FFFF /\ xml_char c = false).
Proof.
  rewrite non_char_spec. unfold xml_char.
  rewrite !orb_false_iff, !andb_false_iff, !Z.eqb_neq, !Z.leb_gt. lia.
Qed.

(** ** Escaped text holds no raw markup *)





Lemma ref_alpha_hex (c : Z) : is_hex_digit c = true -> ref_alpha c = true.
Proof.
  unfold is_hex_digit, ref_alpha.
  rewrite !orb_true_iff, !andb_true_iff, !Z.leb_le, !Z.eqb_eq. lia.
Qed.

(** A match of a single element is replaced by an ampersand and a
    reference. *)
Lemma special_text (c : Z) :
  att_special c = true ->
  exists r, piece_text (Match [c]) = Ch.AMP :: r /\ reference r /\ forallb ref_alpha r = true.
Proof.
  intros H. unfold piece_text, text_of.
  destruct (replacer_att_special c H) as [[Hn ->] | [_ (name & Hname & ->)]]; cbn [fst].
  - apply non_char_spec in Hn.
    destruct (format_x_digits c ltac:(lia)) as (Hne & Hall & _).
    exists (u "#x" ++ format_x c ++ [Ch.SEMI]). split; [reflexivity|].
    split; [by apply char_ref|].
    rewrite !forallb_app. apply andb_true_iff. split; [reflexivity|].
    apply andb_true_iff. split; [|reflexivity].
    apply forallb_forall. intros x Hx. apply ref_alpha_hex.
    by apply (proj1 (forallb_forall _ _) Hall).
  - exists (name ++ [Ch.SEMI]). split; [reflexivity|]. split.
    + apply entity_ref. cbn in Hname |- *. tauto.
    + cbn in Hname. destruct Hname as [<- | [<- | [<- | []]]]; reflexivity.
Qed.

Lemma ref_alpha_not_in (x : Z) (r : list Z) :
  forallb ref_alpha r = true -> ref_alpha x = false -> ~ In x r.
Proof.
  intros Hall Hx Hin. apply (proj1 (forallb_forall _ _) Hall) in Hin. congruence.
Qed.


Lemma special_text_free (c x : Z) :
  att_special c = true -> x <> Ch.AMP -> ref_alpha x = false ->
  ~ In x (piece_text (Match [c])).
Proof.
  intros H Hx Ha. destruct (special_text c H) as (r & -> & _ & Hall).
  intros [E | Hin]; [congruence|]. by apply (ref_alpha_not_in _ _ Hall Ha).
Qed.

Lemma att_special_spec (c : Z) :
  att_special c = false ->
  in_class _non_char c = false /\ c <> Ch.LT /\ c <> Ch.AMP /\ c <> Ch.QUOT.
Proof.
  unfold att_special. rewrite !orb_false_iff, !Z.eqb_neq. tauto.
Qed.

Lemma cd_special_spec (c : Z) :
  cd_special c = false -> in_class _non_char c = false /\ c <> Ch.LT /\ c <> Ch.AMP.
Proof.
  unfold cd_special. rewrite !orb_false_iff, !Z.eqb_neq. tauto.
Qed.

(** *** Attribute values *)

Lemma att_body_cons (c : Z) (t : list Z) :
  att_body (c :: t) =
    (if att_special c then piece_text (Match [c]) else [c]) ++ att_body t.
Proof.
  unfold att_body. rewrite !scan_att. cbn [List.map concat].
  by destruct (att_special c).
Qed.


Lemma att_body_free (x : Z) (s : list Z) :
  x = Ch.LT \/ x = Ch.QUOT -> ~ In x (att_body s).
Proof.
  intros Hx. induction s as [|c t IH]; [intros []|].
  rewrite att_body_cons. intros Hin. apply in_app_or in Hin as [Hin | Hin]; [|by apply IH].
  destruct (att_special c) eqn:E.
  - revert Hin. apply special_text_free; [exact E | |]; destruct Hx as [-> | ->]; done.
  - apply att_special_spec in E. destruct Hin as [<- | []]. tauto.
Qed.

(** *** Character data *)

Lemma cd_body_special (c : Z) (t : list Z) :
  cd_special c = true -> cd_body (c :: t) = piece_text (Match [c]) ++ cd_body t.
Proof. intros H. unfold cd_body. by rewrite scan_cd_special. Qed.

Lemma cd_body_cdend (t : list Z) : cd_body (cdend ++ t) = u "]]&gt;" ++ cd_body t.
Proof.
  unfold cd_body. rewrite scan_cd_cdend. cbn [List.map concat piece_text].
  by rewrite replacer_cdend.
Qed.

Lemma cd_body_keep (c : Z) (t : list Z) :
  cd_special c = false -> starts_with cdend (c :: t) = false ->
  cd_body (c :: t) = c :: cd_body t.
Proof. intros H1 H2. unfold cd_body. by rewrite scan_cd_keep. Qed.


Lemma cd_body_no_lt (s : list Z) : ~ In Ch.LT (cd_body s).
Proof.
  induction s as [| c t Hc IH | t IH | c t Hc Hs IH] using cd_scan_ind.
  - intros [].
  - rewrite cd_body_special by exact Hc. intros Hin.
    apply in_app_or in Hin as [Hin | Hin]; [|by apply IH].
    revert Hin. apply special_text_free; [by apply cd_special_att | done | done].
  - rewrite cd_body_cdend. intros Hin.
    apply in_app_or in Hin as [Hin | Hin]; [|by apply IH].
    vm_compute in Hin. lia.
  - rewrite cd_body_keep by assumption. apply cd_special_spec in Hc.
    intros [E | Hin]; [tauto | by apply IH].
Qed.

(** *** No [cdend] in escaped character data *)

Lemma cd_body_cases (s : list Z) :
  s = [] \/
  (exists c t, s = c :: t /\ cd_special c = true /\
     cd_body s = piece_text (Match [c]) ++ cd_body t) \/
  (exists t, s = cdend ++ t /\ cd_body s = u "]]&gt;" ++ cd_body t) \/
  (exists c t, s = c :: t /\ cd_special c = false /\ starts_with cdend s = false /\
     cd_body s = c :: cd_body t).
Proof.
  destruct s as [|c t]; [by left | right].
  destruct (cd_special c) eqn:Ec.
  - left. exists c, t. by rewrite cd_body_special.
  - right. destruct (starts_with cdend (c :: t)) eqn:Es.
    + left. apply starts_with_cdend in Es as [t' ->]. exists t'. by rewrite cd_body_cdend.
    + right. exists c, t. by rewrite cd_body_keep.
Qed.

Lemma cd_body_head_GT (s r : list Z) :
  cd_body s = Ch.GT :: r -> exists t, s = Ch.GT :: t.
Proof.
  intros H.
  destruct (cd_body_cases s)
    as [-> | [(c & t & -> & Hc & E) | [(t & -> & E) | (c & t & -> & Hc & Hs & E)]]].
  - discriminate.
  - rewrite E in H. destruct (special_text c (cd_special_att c Hc)) as (x & Hx & _).
    rewrite Hx in H. discriminate.
  - rewrite E in H. discriminate.
  - rewrite E in H. injection H as -> _. by exists t.
Qed.

Lemma cd_body_head_RB_GT (s r : list Z) :
  cd_body s = Ch.RB :: Ch.GT :: r -> exists t, s = Ch.RB :: Ch.GT :: t.
Proof.
  intros H.
  destruct (cd_body_cases s)
    as [-> | [(c & t & -> & Hc & E) | [(t & -> & E) | (c & t & -> & Hc & Hs & E)]]].
  - discriminate.
  - rewrite E in H. destruct (special_text c (cd_special_att c Hc)) as (x & Hx & _).
    rewrite Hx in H. discriminate.
  - rewrite E in H. discriminate.
  - rewrite E in H. injection H as -> H.
    apply cd_body_head_GT in H as [t' ->]. by exists t'.
Qed.

(** An occurrence cannot begin inside a text that holds no closing bracket. *)
Lemma occurs_cdend_skip (img rest : list Z) :
  ~ In Ch.RB img -> occurs cdend (img ++ rest) -> occurs cdend rest.
Proof.
  induction img as [|a img IH]; intros Hn H; [exact H|].
  destruct H as (p & q & H). destruct p as [|x p].
  - injection H as -> _. exfalso. apply Hn. by left.
  - injection H as _ H. apply IH.
    + intros Hin. apply Hn. by right.
    + by exists p, q.
Qed.

Lemma cd_body_no_cdend (s : list Z) : ~ occurs cdend (cd_body s).
Proof.
  induction s as [| c t Hc IH | t IH | c t Hc Hs IH] using cd_scan_ind.
  - intros (p & q & H). destruct p; discriminate.
  - rewrite cd_body_special by exact Hc. intros H. apply IH.
    revert H. apply occurs_cdend_skip.
    destruct (special_text c (cd_special_att c Hc)) as (r & -> & _ & Hall).
    intros [E | Hin]; [discriminate|].
    by apply (ref_alpha_not_in Ch.RB r Hall).
  - rewrite cd_body_cdend. intros (p & q & H). apply IH.
    change (u "]]&gt;") with ([Ch.RB; Ch.RB] ++ u "&gt;") in H.
    destruct p as [|x [|y p]]; try discriminate.
    injection H as _ _ H.
    apply (occurs_cdend_skip (u "&gt;")); [vm_compute; lia|].
    by exists p, q.
  - rewrite cd_body_keep by assumption. intros (p & q & H). destruct p as [|x p].
    + injection H as -> H. apply cd_body_head_RB_GT in H as [t' ->].
      discriminate.
    + injection H as _ H. apply IH. by exists p, q.
Qed.

(** ** Escaping part by part *)

Lemma att_body_app (s1 s2 : list Z) : att_body (s1 ++ s2) = att_body s1 ++ att_body s2.
Proof. unfold att_body. by rewrite !scan_att, !map_app, concat_app. Qed.

Lemma att_warnings_app (s1 s2 : list Z) :
  att_warnings (s1 ++ s2) = att_warnings s1 ++ att_warnings s2.
Proof. unfold att_warnings. by rewrite !scan_att, !map_app, concat_app. Qed.

Lemma straddles_cons (c : Z) (s1 s2 : list Z) : straddles s1 s2 -> straddles (c :: s1) s2.
Proof.
  intros [(p & q & -> & ->) | (p & q & -> & ->)]; [left | right]; by exists (c :: p), q.
Qed.

Lemma straddles_app (l s1 s2 : list Z) : straddles s1 s2 -> straddles (l ++ s1) s2.
Proof. induction l as [|c l IH]; [done|]. intros H. by apply straddles_cons, IH. Qed.

Lemma scan_cd_app (s1 s2 : list Z) :
  ~ straddles s1 s2 ->
  scan _non_char_data_matcher 0 (s1 ++ s2)
  = scan _non_char_data_matcher 0 s1 ++ scan _non_char_data_matcher 0 s2.
Proof.
  induction s1 as [| c t Hc IH | t IH | c t Hc Hs IH] using cd_scan_ind; intros Hn.
  - reflexivity.
  - cbn [app]. rewrite !scan_cd_special by exact Hc. cbn [app]. f_equal.
    apply IH. intros H. by apply Hn, straddles_cons.
  - rewrite <- app_assoc, !scan_cd_cdend. cbn [app]. f_equal.
    apply IH. intros H. by apply Hn, straddles_app.
  - cbn [app]. rewrite (scan_cd_keep c t) by assumption.
    rewrite scan_cd_keep; [cbn [app]; f_equal; apply IH; intros H; by apply Hn, straddles_cons
                          | exact Hc |].
    destruct (starts_with cdend (c :: t ++ s2)) eqn:E; [|reflexivity].
    exfalso. apply starts_with_cdend in E as [t' E]. unfold cdend in E.
    destruct t as [|x [|y t]]; cbn in E.
    + injection E as -> ->. apply Hn. right. by exists [], t'.
    + injection E as -> -> ->. apply Hn. left. by exists [], t'.
    + injection E as -> -> -> _. discriminate.
Qed.

Lemma cd_body_app (s1 s2 : list Z) :
  ~ straddles s1 s2 -> cd_body (s1 ++ s2) = cd_body s1 ++ cd_body s2.
Proof. intros H. unfold cd_body. by rewrite scan_cd_app, map_app, concat_app. Qed.

Lemma cd_warnings_app (s1 s2 : list Z) :
  ~ straddles s1 s2 -> cd_warnings (s1 ++ s2) = cd_warnings s1 ++ cd_warnings s2.
Proof. intros H. unfold cd_warnings. by rewrite scan_cd_app, map_app, concat_app. Qed.

Lemma formatAttribute_eq (s : list Z) :
  _formatAttribute s = (inr ([Ch.QUOT] ++ att_body s ++ [Ch.QUOT]), att_warnings s).
Proof. apply formatAttribute_run. Qed.

Lemma formatElementText_eq (s : list Z) :
  _formatElementText s = (inr (cd_body s), cd_warnings s).
Proof. apply formatElementText_run. Qed.

(** An element matched on its own. *)
Lemma att_single_non_char (c : Z) :
  in_class _non_char c = true ->
  att_body [c] = u "&#x" ++ format_x c ++ u ";" /\ att_warnings [c] = [invalid_xml_warning].
Proof.
  intros H. unfold att_body, att_warnings. rewrite scan_att. cbn [List.map].
  unfold att_special. rewrite H. cbn [orb concat piece_text piece_warnings].
  rewrite (replacer_non_char c H). cbn [text_of fst snd]. by rewrite !app_nil_r.
Qed.

Lemma cd_single_non_char (c : Z) (t : list Z) :
  in_class _non_char c = true ->
  cd_body (c :: t) = (u "&#x" ++ format_x c ++ u ";") ++ cd_body t /\
  cd_warnings (c :: t) = invalid_xml_warning :: cd_warnings t.
Proof.
  intros H. assert (Hs : cd_special c = true) by (unfold cd_special; by rewrite H).
  unfold cd_body, cd_warnings. rewrite (scan_cd_special c t Hs).
  cbn [List.map concat piece_text piece_warnings].
  rewrite (replacer_non_char c H). by cbn [text_of fst snd app].
Qed.

(** ** Clean input *)

Lemma att_plain (s : list Z) :
  (forall c, In c s -> att_special c = false) -> att_body s = s /\ att_warnings s = [].
Proof.
  unfold att_body, att_warnings. rewrite scan_att.
  induction s as [|c t IH]; intros H; [done|].
  cbn [List.map]. rewrite (H c (or_introl eq_refl)).
  destruct IH as [IH1 IH2]; [intros x Hx; apply H; by right|].
  cbn [concat piece_text piece_warnings]. by rewrite IH1, IH2.
Qed.

Lemma not_occurs_tail (pat : list Z) (c : Z) (t : list Z) :
  ~ occurs pat (c :: t) -> ~ occurs pat t.
Proof. intros H (p & q & ->). apply H. by exists (c :: p), q. Qed.

Lemma cd_plain (s : list Z) :
  (forall c, In c s -> cd_special c = false) -> ~ occurs cdend s ->
  cd_body s = s /\ cd_warnings s = [].
Proof.
  unfold cd_body, cd_warnings.
  induction s as [| c t Hc IH | t IH | c t Hc Hs IH] using cd_scan_ind; intros H Ho.
  - done.
  - rewrite (H c (or_introl eq_refl)) in Hc. discriminate.
  - exfalso. apply Ho. by exists [], t.
  - rewrite scan_cd_keep by assumption.
    destruct IH as [IH1 IH2];
      [intros x Hx; apply H; by right | by apply not_occurs_tail in Ho |].
    cbn [List.map concat piece_text piece_warnings]. by rewrite IH1, IH2.
Qed.

Lemma xml_char_not_non_char (c : Z) : xml_char c = true -> in_class _non_char c = false.
Proof.
  intros H. destruct (in_class _non_char c) eqn:E; [|reflexivity].
  apply non_char_xml_char in E as [_ E]. congruence.
Qed.

Lemma plain_att_special (c : Z) :
  xml_char c = true -> reserved c = false -> att_special c = false.
Proof.
  intros H1 H2. unfold att_special. rewrite (xml_char_not_non_char c H1).
  unfold reserved in H2. rewrite !orb_false_iff in H2. destruct H2 as [[[-> ->] ->] _].
  reflexivity.
Qed.

Lemma att_special_cd (c : Z) : att_special c = false -> cd_special c = false.
Proof.
  unfold att_special, cd_special. rewrite !orb_false_iff. tauto.
Qed.

(** * The escaper: what the formatting functions guarantee *)

Lemma not_occurs_without (x : Z) (pat s : list Z) :
  In x pat -> ~ In x s -> ~ occurs pat s.
Proof.
  intros Hx Hn (p & q & ->). apply Hn.
  apply in_or_app. right. apply in_or_app. by left.
Qed.



(** C3: a string of legal characters with no [<], [&], double quote or
    apostrophe in it and no [cdend] comes back unchanged: between two double
    quotes from [_formatAttribute], as it is from [_formatElementText], and
    without a warning. *)
Theorem clean_input_is_unchanged (s : list Z) :
  (forall c, In c s -> xml_char c = true /\ reserved c = false) ->
  ~ occurs cdend s ->
  _formatAttribute s = (inr ([Ch.QUOT] ++ s ++ [Ch.QUOT]), []) /\
  _formatElementText s = (inr s, []).
Proof.
  intros H Ho.
  assert (Ha : forall c, In c s -> att_special c = false).
  { intros c Hc. destruct (H c Hc). by apply plain_att_special. }
  rewrite formatAttribute_eq, formatElementText_eq.
  destruct (att_plain s Ha) as [-> ->].
  destruct (cd_plain s) as [-> ->]; [|exact Ho|done].
  intros c Hc. by apply att_special_cd, Ha.
Qed.

Lemma clean_input_is_unchanged_witness :
  _formatAttribute (u "ab") = (inr ([Ch.QUOT] ++ u "ab" ++ [Ch.QUOT]), []) /\
  _formatElementText (u "ab") = (inr (u "ab"), []).
Proof.
  apply clean_input_is_unchanged.
  - intros c Hc. vm_compute in Hc. destruct Hc as [<- | [<- | []]]; by split.
  - apply (not_occurs_without Ch.GT); [vm_compute; tauto | vm_compute; lia].
Defined.

(** C9: tab, line feed and carriage return are not in [_non_char]; a string
    made of them and of legal characters other than [<], [&], double quote
    and apostrophe, with no [cdend] in it, comes back unchanged from both
    functions (between two double quotes from [_formatAttribute]) and no
    warning is issued. *)
Theorem tab_lf_cr_pass_through (s : list Z) :
  (forall c, In c s ->
     c = Ch.TAB \/ c = Ch.LF \/ c = Ch.CR \/ (xml_char c = true /\ reserved c = false)) ->
  ~ occurs cdend s ->
  in_class _non_char Ch.TAB = false /\
  in_class _non_char Ch.LF = false /\
  in_class _non_char Ch.CR = false /\
  _formatAttribute s = (inr ([Ch.QUOT] ++ s ++ [Ch.QUOT]), []) /\
  _formatElementText s = (inr s, []).
Proof.
  intros H Ho. do 3 (split; [reflexivity|]).
  assert (Ha : forall c, In c s -> att_special c = false).
  { intros c Hc. destruct (H c Hc) as [-> | [-> | [-> | [H1 H2]]]]; try reflexivity.
    by apply plain_att_special. }
  rewrite formatAttribute_eq, formatElementText_eq.
  destruct (att_plain s Ha) as [-> ->].
  destruct (cd_plain s) as [-> ->]; [|exact Ho|done].
  intros c Hc. by apply att_special_cd, Ha.
Qed.

Lemma tab_lf_cr_pass_through_witness :
  _formatAttribute [Ch.TAB; 97; Ch.LF; Ch.CR]
  = (inr ([Ch.QUOT] ++ [Ch.TAB; 97; Ch.LF; Ch.CR] ++ [Ch.QUOT]), []) /\
  _formatElementText [Ch.TAB; 97; Ch.LF; Ch.CR] = (inr [Ch.TAB; 97; Ch.LF; Ch.CR], []).
Proof.
  apply tab_lf_cr_pass_through.
  - intros c Hc. destruct Hc as [<- | [<- | [<- | [<- | []]]]]; auto.
  - apply (not_occurs_without Ch.GT); [vm_compute; tauto | vm_compute; lia].
Defined.

(** C10: the table has an entry for [>], yet a [>] that does not close a
    [cdend] is never replaced: if the text before it does not end in two
    closing brackets, both functions copy it, and escape what comes before
    and what comes after as they do on their own. *)
Theorem lone_gt_is_never_escaped (s1 s2 : list Z) :
  ~ (exists p, s1 = p ++ [Ch.RB; Ch.RB]) ->
  _replacements !! [Ch.GT] = Some (u "&gt;") /\
  (exists a1 w1 a2 w2,
     _formatAttribute s1 = (inr ([Ch.QUOT] ++ a1 ++ [Ch.QUOT]), w1) /\
     _formatAttribute s2 = (inr ([Ch.QUOT] ++ a2 ++ [Ch.QUOT]), w2) /\
     _formatAttribute (s1 ++ Ch.GT :: s2)
     = (inr ([Ch.QUOT] ++ (a1 ++ Ch.GT :: a2) ++ [Ch.QUOT]), w1 ++ w2)) /\
  (exists t1 w1 t2 w2,
     _formatElementText s1 = (inr t1, w1) /\
     _formatElementText s2 = (inr t2, w2) /\
     _formatElementText (s1 ++ Ch.GT :: s2) = (inr (t1 ++ Ch.GT :: t2), w1 ++ w2)).
Proof.
  intros Hs. split; [by rewrite replacements_single|]. split.
  - exists (att_body s1), (att_warnings s1), (att_body s2), (att_warnings s2).
    rewrite !formatAttribute_eq. repeat split.
    change (Ch.GT :: s2) with ([Ch.GT] ++ s2).
    by rewrite !att_body_app, !att_warnings_app.
  - exists (cd_body s1), (cd_warnings s1), (cd_body s2), (cd_warnings s2).
    rewrite !formatElementText_eq. repeat split.
    assert (Hn : ~ straddles s1 (Ch.GT :: s2)).
    { intros [(p & q & -> & _) | (p & q & _ & E)]; [apply Hs; by exists p | discriminate]. }
    rewrite (cd_body_app _ _ Hn), (cd_warnings_app _ _ Hn).
    unfold cd_body at 2, cd_warnings at 2.
    by rewrite (scan_cd_keep Ch.GT s2).
Qed.

Lemma lone_gt_is_never_escaped_witness :
  ~ (exists p, u "a]" = p ++ [Ch.RB; Ch.RB]) /\
  _formatElementText (u "a]" ++ Ch.GT :: u "b") = (inr (u "a]>b"), []).
Proof.
  assert (Hs : ~ (exists p, u "a]" = p ++ [Ch.RB; Ch.RB])).
  { intros [p E]. destruct p as [|x [|y [|z p]]]; vm_compute in E; discriminate. }
  split; [exact Hs|].
  destruct (lone_gt_is_never_escaped (u "a]") (u "b") Hs)
    as (_ & _ & (t1 & v1 & t2 & v2 & T1 & T2 & T)).
  rewrite T. clear T. vm_compute in T1, T2.
  injection T1 as <- <-. injection T2 as <- <-. reflexivity.
Defined.

(** * The tree writer *)

Lemma bind_run {A B : Type} (m : IO A) (k : A -> IO B) (w w' : World) (a : A) :
  m w = (inr a, w') -> bind (M := IO) m k w = k a w'.
Proof. intros H. cbn. by rewrite H. Qed.

Lemma bind_fail {A B : Type} (m : IO A) (k : A -> IO B) (w w' : World) (e : exn) :
  m w = (inl e, w') -> bind (M := IO) m k w = (inl e, w').
Proof. intros H. cbn. by rewrite H. Qed.

Lemma escapeAttributeValue_eq (s : list Z) :
  escapeAttributeValue s = [Ch.QUOT] ++ att_body s ++ [Ch.QUOT].
Proof. unfold escapeAttributeValue. by rewrite formatAttribute_eq. Qed.

Lemma escapeCharData_eq (s : list Z) : escapeCharData s = cd_body s.
Proof. unfold escapeCharData. by rewrite formatElementText_eq. Qed.

Lemma escaping_attribute (s : list Z) (w : World) :
  escaping (_formatAttribute s) w
  = (inr (escapeAttributeValue s),
     {| files := files w; warned := warned w ++ att_warnings s |}).
Proof. unfold escaping, escapeAttributeValue. by rewrite formatAttribute_eq. Qed.

Lemma escaping_text (s : list Z) (w : World) :
  escaping (_formatElementText s) w
  = (inr (escapeCharData s),
     {| files := files w; warned := warned w ++ cd_warnings s |}).
Proof. unfold escaping, escapeCharData. by rewrite formatElementText_eq. Qed.

Section Reliable.

Variable st : Storage.
Hypothesis Hst : reliable st.

Lemma write_run (m : gmap string File) (f : string) (d t : list Z) (log : list string) :
  write st f t (opened m f d log) = (inr tt, opened m f (d ++ t) log).
Proof.
  unfold write, opened. cbn [files warned]. rewrite lookup_insert_eq. cbn [closed data].
  rewrite (proj2 Hst). by rewrite insert_insert_eq.
Qed.

Lemma print_run (m : gmap string File) (f : string) (d t : list Z) (log : list string) :
  print_to st f t (opened m f d log) = (inr tt, opened m f (d ++ t ++ [Ch.LF]) log).
Proof.
  unfold print_to. rewrite (bind_run _ _ _ _ _ (write_run m f d t log)).
  by rewrite write_run, <- app_assoc.
Qed.

Lemma for_each_run {A : Type} (body : A -> IO unit) (text : A -> list Z)
    (warns : A -> list string) (m : gmap string File) (f : string) (l : list A) :
  (forall x d log, body x (opened m f d log)
                   = (inr tt, opened m f (d ++ text x) (log ++ warns x))) ->
  forall d log,
    for_each l body (opened m f d log)
    = (inr tt, opened m f (d ++ concat (List.map text l))
                      (log ++ concat (List.map warns l))).
Proof.
  intros Hbody. induction l as [|x l IH]; intros d log.
  - cbn. by rewrite !app_nil_r.
  - cbn [for_each List.map concat].
    rewrite (bind_run _ _ _ _ _ (Hbody x d log)), IH.
    by rewrite <- !app_assoc.
Qed.

Lemma escaping_attribute_opened (s : list Z) (m : gmap string File) (f : string)
    (d : list Z) (log : list string) :
  escaping (_formatAttribute s) (opened m f d log)
  = (inr (escapeAttributeValue s), opened m f d (log ++ att_warnings s)).
Proof. apply escaping_attribute. Qed.

Lemma escaping_text_opened (s : list Z) (m : gmap string File) (f : string)
    (d : list Z) (log : list string) :
  escaping (_formatElementText s) (opened m f d log)
  = (inr (escapeCharData s), opened m f d (log ++ cd_warnings s)).
Proof. apply escaping_text. Qed.

Lemma unlines_cons (l : list Z) (ls : list (list Z)) :
  unlines (l :: ls) = l ++ [Ch.LF] ++ unlines ls.
Proof. unfold unlines. cbn [List.map concat]. by rewrite <- app_assoc. Qed.

Lemma unlines_app (l1 l2 : list (list Z)) : unlines (l1 ++ l2) = unlines l1 ++ unlines l2.
Proof. unfold unlines. by rewrite map_app, concat_app. Qed.

Lemma unlines_nil : unlines [] = [].
Proof. reflexivity. Qed.

Lemma unlines_concat (ls : list (list (list Z))) :
  unlines (concat ls) = concat (List.map unlines ls).
Proof.
  induction ls as [|l ls IH]; [reflexivity|].
  cbn [concat List.map]. by rewrite unlines_app, IH.
Qed.

Lemma writeCell_run (m : gmap string File) (f : string) (cv : list Z * list Z)
    (n : nat) (d : list Z) (log : list string) :
  _writeCell st f (fst cv) (snd cv) n (opened m f d log)
  = (inr tt, opened m f (d ++ unlines [cell_line n cv]) (log ++ cell_warnings cv)).
Proof.
  unfold _writeCell.
  rewrite (bind_run _ _ _ _ _ (escaping_attribute_opened _ _ _ _ _)).
  rewrite (bind_run _ _ _ _ _ (escaping_text_opened _ _ _ _ _)).
  rewrite print_run. unfold cell_warnings, cell_line, indentation, _indentStr.
  rewrite unlines_cons, unlines_nil, app_nil_r. by rewrite <- !app_assoc.
Qed.

Lemma cells_run (m : gmap string File) (f : string) (row : Row) (n : nat)
    (d : list Z) (log : list string) :
  for_each row (fun cv => _writeCell st f (fst cv) (snd cv) n) (opened m f d log)
  = (inr tt, opened m f (d ++ unlines (List.map (cell_line n) row))
                    (log ++ concat (List.map cell_warnings row))).
Proof.
  rewrite (for_each_run _ (fun cv => unlines [cell_line n cv]) cell_warnings).
  - do 3 f_equal. induction row as [|cv row IH]; [reflexivity|].
    cbn [List.map concat]. by rewrite IH, <- unlines_app.
  - intros. apply writeCell_run.
Qed.

Lemma writeRow_run (m : gmap string File) (f : string) (r : RowEntry) (n : nat)
    (d : list Z) (log : list string) :
  _writeRow st f (fst (fst r)) (snd (fst r)) (snd r) n (opened m f d log)
  = (inr tt, opened m f (d ++ unlines (row_lines n r)) (log ++ row_warnings r)).
Proof.
  unfold _writeRow.
  rewrite (bind_run _ _ _ _ _ (escaping_attribute_opened _ _ _ _ _)).
  rewrite (bind_run _ _ _ _ _ (escaping_attribute_opened _ _ _ _ _)).
  rewrite (bind_run _ _ _ _ _ (print_run _ _ _ _ _)).
  rewrite (bind_run _ _ _ _ _ (cells_run _ _ _ _ _ _)).
  rewrite print_run. unfold row_lines, row_warnings, indentation, _indentStr.
  rewrite !unlines_app, !unlines_cons, !unlines_nil, !app_nil_r.
  by rewrite <- !app_assoc.
Qed.

Lemma rows_run (m : gmap string File) (f : string) (l : list RowEntry) (n : nat)
    (d : list Z) (log : list string) :
  for_each l (fun r => _writeRow st f (fst (fst r)) (snd (fst r)) (snd r) n)
           (opened m f d log)
  = (inr tt, opened m f (d ++ unlines (concat (List.map (row_lines n) l)))
                    (log ++ concat (List.map row_warnings l))).
Proof.
  rewrite (for_each_run _ (fun r => unlines (row_lines n r)) row_warnings).
  - by rewrite unlines_concat, map_map.
  - intros. apply writeRow_run.
Qed.

Lemma writeMetaTable_run (m : gmap string File) (f : string) (meta : MetaTable)
    (n : nat) (d : list Z) (log : list string) :
  _writeMetaTable st f meta n (opened m f d log)
  = (inr tt, opened m f (d ++ unlines (metatable_lines n meta))
                    (log ++ metatable_warnings meta)).
Proof.
  unfold _writeMetaTable.
  rewrite (bind_run _ _ _ _ _ (print_run _ _ _ _ _)).
  rewrite (bind_run _ _ _ _ _ (cells_run _ _ _ _ _ _)).
  rewrite (bind_run _ _ _ _ _ (rows_run _ _ _ _ _ _)).
  rewrite print_run. unfold metatable_lines, metatable_warnings, indentation, _indentStr.
  rewrite !unlines_app, !unlines_cons, !unlines_nil, !app_nil_r.
  by rewrite <- !app_assoc.
Qed.

Lemma writeTable_run (m : gmap string File) (f : string) (namespace oid : list Z)
    (table : Table) (meta : option MetaTable) (n : nat) (d : list Z) (log : list string) :
  _writeTable st f namespace oid table meta n (opened m f d log)
  = (inr tt, opened m f (d ++ unlines (table_lines n namespace oid table meta))
                    (log ++ table_warnings namespace oid table meta)).
Proof.
  unfold _writeTable.
  rewrite (bind_run _ _ _ _ _ (escaping_attribute_opened _ _ _ _ _)).
  rewrite (bind_run _ _ _ _ _ (escaping_attribute_opened _ _ _ _ _)).
  rewrite (bind_run _ _ _ _ _ (print_run _ _ _ _ _)).
  rewrite (bind_run _ _ _ _ _ (rows_run _ _ _ _ _ _)).
  unfold table_lines, table_warnings, indentation, _indentStr.
  destruct meta as [meta|].
  - rewrite (bind_run _ _ _ _ _ (writeMetaTable_run _ _ _ _ _ _)).
    rewrite print_run.
    rewrite !unlines_app, !unlines_cons, !unlines_nil, !app_nil_r.
    by rewrite <- !app_assoc.
  - rewrite (bind_run _ _ (opened m f _ _) (opened m f _ _) tt eq_refl).
    rewrite print_run.
    rewrite !unlines_app, !unlines_cons, !unlines_nil, !app_nil_r.
    by rewrite <- !app_assoc.
Qed.

Lemma outputHelper_run (db : MorkDatabase) (out : option string) (w : World) :
  _outputHelper st db out w
  = (inr tt,
     {| files := <[ default "mork.xml"%string out :=
                      {| data := unlines (document_lines db); closed := true |} ]> (files w);
        warned := warned w ++ document_warnings db |}).
Proof.
  unfold _outputHelper.
  assert (Ho : codecs_open st (default "mork.xml"%string out) w
               = (inr (default "mork.xml"%string out),
                  opened (files w) (default "mork.xml"%string out) [] (warned w))).
  { unfold codecs_open. by rewrite (proj1 Hst). }
  rewrite (bind_run _ _ _ _ _ Ho).
  rewrite (bind_run _ _ _ _ _ (print_run _ _ _ _ _)).
  rewrite (bind_run _ _ _ _ _ (print_run _ _ _ _ _)).
  rewrite (bind_run _ _ _ _ _
             (for_each_run _
                (fun t => unlines (table_lines 1 (fst (fst t)) (snd (fst t)) (snd t)
                                     (metaTables db !! (fst (fst t), snd (fst t)))))
                (fun t => table_warnings (fst (fst t)) (snd (fst t)) (snd t)
                                     (metaTables db !! (fst (fst t), snd (fst t))))
                _ _ _ (fun t d log => writeTable_run _ _ _ _ _ _ _ _ _) _ _)).
  rewrite (bind_run _ _ _ _ _ (print_run _ _ _ _ _)).
  unfold close, opened. cbn [files warned]. rewrite lookup_insert_eq. cbn [data].
  rewrite insert_insert_eq. unfold document_lines, document_warnings, xml_declaration.
  rewrite !unlines_app, !unlines_cons, !unlines_nil, unlines_concat, map_map.
  cbn [app]. rewrite ?app_nil_r. by rewrite <- !app_assoc.
Qed.

End Reliable.

Lemma ref_alpha_spec_false (c : Z) :
  ref_alpha c = false ->
  c <> Ch.HASH /\ c <> Ch.SEMI /\ ~ (48 <= c <= 57) /\ ~ (97 <= c <= 122).
Proof.
  unfold ref_alpha.
  rewrite !orb_false_iff, !andb_false_iff, !Z.leb_gt, !Z.eqb_neq. lia.
Qed.

(** ** What a line can hold *)

Lemma att_body_keeps_out (x : Z) (s : list Z) :
  x <> Ch.AMP -> ref_alpha x = false -> ~ In x s -> ~ In x (att_body s).
Proof.
  intros Hx Ha. induction s as [|c t IH]; intros Hs; [intros []|].
  rewrite att_body_cons. intros Hin. apply in_app_or in Hin as [Hin | Hin].
  - destruct (att_special c) eqn:E.
    + revert Hin. by apply special_text_free.
    + destruct Hin as [<- | []]. apply Hs. by left.
  - revert Hin. apply IH. intros H. apply Hs. by right.
Qed.

Lemma cd_body_keeps_out (x : Z) (s : list Z) :
  x <> Ch.AMP -> ref_alpha x = false -> ~ In x s -> ~ In x (cd_body s).
Proof.
  intros Hx Ha.
  induction s as [| c t Hc IH | t IH | c t Hc Hs IH] using cd_scan_ind; intros Hn.
  - intros [].
  - rewrite cd_body_special by exact Hc. intros Hin.
    apply in_app_or in Hin as [Hin | Hin].
    + revert Hin. apply special_text_free; [by apply cd_special_att | done | done].
    + revert Hin. apply IH. intros H. apply Hn. by right.
  - rewrite cd_body_cdend. intros Hin. apply in_app_or in Hin as [Hin | Hin].
    + assert (Hrb : x <> Ch.RB).
      { intros ->. apply Hn. by left. }
      apply ref_alpha_spec_false in Ha.
      vm_compute in Hin. unfold Ch.RB, Ch.AMP, Ch.SEMI, Ch.HASH in *. lia.
    + revert Hin. apply IH. intros H. apply Hn. apply in_or_app. by right.
  - rewrite cd_body_keep by assumption.
    intros [<- | Hin]; [apply Hn; by left|].
    revert Hin. apply IH. intros H. apply Hn. by right.
Qed.

Lemma times_in (x : Z) (l : list Z) (n : nat) : In x (times l n) -> In x l.
Proof.
  unfold times. induction n as [|n IH]; cbn [replicate concat]; [intros []|].
  intros H. apply in_app_or in H as [H | H]; [exact H | by apply IH].
Qed.

Lemma reliable_sound_storage : reliable sound_storage.
Proof. by split. Qed.

(** C4: the example of section 8. With the sink reliable and [out] left out,
    the file [mork.xml] holds the eight lines of the example, and is
    closed. *)
Theorem example_document (st : Storage) (w : World) :
  reliable st ->
  exists w',
    _outputHelper st example_db None w = (inr tt, w') /\
    files w' !! "mork.xml"%string = Some {| data := example_xml; closed := true |}.
Proof.
  intros Hst. rewrite (outputHelper_run st Hst). eexists. split; [reflexivity|].
  cbn [files default]. rewrite lookup_insert_eq. do 2 f_equal.
Qed.

Lemma example_document_witness :
  reliable sound_storage /\
  exists w',
    _outputHelper sound_storage example_db None empty_world = (inr tt, w') /\
    files w' !! "mork.xml"%string = Some {| data := example_xml; closed := true |}.
Proof.
  split; [exact reliable_sound_storage|].
  apply (example_document sound_storage empty_world). exact reliable_sound_storage.
Defined.

(** C5: the file is the lines of [document_lines] in their order: the
    declaration and the root tag, the tables in stored order, each with its
    rows in stored order and then its metatable if it has one, a metatable
    with its cells and then its rows, a row with its cells in stored order;
    every item of every sequence gives its lines once, where it stands. *)
Theorem document_keeps_stored_order (st : Storage) (db : MorkDatabase)
    (out : option string) (w : World) :
  reliable st ->
  _outputHelper st db out w
  = (inr tt,
     {| files := <[ default "mork.xml"%string out :=
                      {| data := unlines (document_lines db); closed := true |} ]> (files w);
        warned := warned w ++ document_warnings db |}).
Proof. intros Hst. by apply outputHelper_run. Qed.

Lemma document_keeps_stored_order_witness :
  reliable sound_storage /\
  _outputHelper sound_storage sample_db None empty_world
  = (inr tt,
     {| files := <[ "mork.xml"%string :=
                      {| data := unlines (document_lines sample_db); closed := true |} ]> ∅;
        warned := [] ++ document_warnings sample_db |}).
Proof.
  split; [exact reliable_sound_storage|].
  apply (document_keeps_stored_order sound_storage sample_db None empty_world).
  exact reliable_sound_storage.
Defined.

Example sample_document_lines :
  document_lines sample_db
  = [ dq "<?xml version='1.0' encoding='UTF-8' ?>";
      dq "<morkxml>";
      dq "    <table namespace='ns' id='T1'>";
      dq "        <row namespace='ns' id='r1'>";
      dq "            <cell column='a'>1</cell>";
      dq "            <cell column='b'>2</cell>";
      dq "        </row>";
      dq "        <row namespace='ns' id='r2'>";
      dq "            <cell column='a'>3</cell>";
      dq "        </row>";
      dq "        <metatable>";
      dq "            <cell column='k'>v</cell>";
      dq "            <row namespace='m' id='r3'>";
      dq "                <cell column='c'>4</cell>";
      dq "            </row>";
      dq "        </metatable>";
      dq "    </table>";
      dq "    <table namespace='ns' id='T2'>";
      dq "    </table>";
      dq "</morkxml>" ].
Proof. by vm_compute. Qed.




(** ** Exit paths *)






Section ExitPaths.

Variable st : Storage.









End ExitPaths.



(** * Further properties of the escaper *)

(** ** Warnings *)

Lemma special_warnings (c : Z) :
  att_special c = true ->
  piece_warnings (Match [c])
  = if in_class _non_char c then [invalid_xml_warning] else [].
Proof.
  intros H. unfold piece_warnings.
  destruct (replacer_att_special c H) as [[Hn ->] | [Hn (name & _ & ->)]];
    by rewrite Hn.
Qed.

Lemma att_special_non_char (c : Z) : att_special c = false -> in_class _non_char c = false.
Proof. intros H. by apply att_special_spec in H as [-> _]. Qed.

Lemma att_warnings_count (s : list Z) : att_warnings s = illegal_warnings s.
Proof.
  unfold att_warnings, illegal_warnings. rewrite scan_att.
  induction s as [|c t IH]; [reflexivity|].
  cbn [List.map concat List.filter]. rewrite IH. clear IH.
  destruct (att_special c) eqn:E.
  - rewrite (special_warnings c E). by destruct (in_class _non_char c).
  - by rewrite (att_special_non_char c E).
Qed.

Lemma cd_warnings_count (s : list Z) : cd_warnings s = illegal_warnings s.
Proof.
  unfold cd_warnings, illegal_warnings.
  induction s as [| c t Hc IH | t IH | c t Hc Hs IH] using cd_scan_ind.
  - reflexivity.
  - rewrite scan_cd_special by exact Hc. cbn [List.map concat List.filter].
    rewrite IH, (special_warnings c (cd_special_att c Hc)).
    by destruct (in_class _non_char c).
  - rewrite scan_cd_cdend. cbn [List.map concat piece_warnings].
    rewrite replacer_cdend, IH. reflexivity.
  - rewrite scan_cd_keep by assumption. cbn [List.map concat List.filter piece_warnings].
    apply cd_special_spec in Hc as [-> _]. by rewrite IH.
Qed.

(** X1: both formatting functions issue one warning, always the same one,
    for each element of the input that is in [_non_char], and none for
    anything else. *)
Theorem one_warning_per_illegal_element (s : list Z) :
  snd (_formatAttribute s) = illegal_warnings s /\
  snd (_formatElementText s) = illegal_warnings s.
Proof.
  rewrite formatAttribute_eq, formatElementText_eq. cbn [snd].
  split; [apply att_warnings_count | apply cd_warnings_count].
Qed.

(** ** What escaped text is made of *)

Lemma ref_alpha_legal (x : Z) : ref_alpha x = true -> in_class _non_char x = false.
Proof.
  intros H. destruct (in_class _non_char x) eqn:E; [|reflexivity].
  apply non_char_spec in E. unfold ref_alpha in H.
  rewrite !orb_true_iff, !andb_true_iff, !Z.leb_le, !Z.eqb_eq in H.
  unfold Ch.HASH, Ch.SEMI in H. lia.
Qed.

Lemma special_text_legal (c x : Z) :
  att_special c = true -> In x (piece_text (Match [c])) -> in_class _non_char x = false.
Proof.
  intros H Hin. destruct (special_text c H) as (r & E & _ & Hall). rewrite E in Hin.
  destruct Hin as [<- | Hin]; [reflexivity|].
  apply ref_alpha_legal. by apply (proj1 (forallb_forall _ _) Hall).
Qed.

Lemma att_body_legal (s : list Z) (x : Z) :
  In x (att_body s) -> in_class _non_char x = false.
Proof.
  induction s as [|c t IH]; [intros []|].
  rewrite att_body_cons. intros H. apply in_app_or in H as [H | H]; [|by apply IH].
  destruct (att_special c) eqn:E; [by apply (special_text_legal c)|].
  destruct H as [<- | []]. by apply att_special_non_char.
Qed.

Lemma cd_body_legal (s : list Z) (x : Z) :
  In x (cd_body s) -> in_class _non_char x = false.
Proof.
  induction s as [| c t Hc IH | t IH | c t Hc Hs IH] using cd_scan_ind.
  - intros [].
  - rewrite cd_body_special by exact Hc. intros H.
    apply in_app_or in H as [H | H]; [|by apply IH].
    by apply (special_text_legal c); [apply cd_special_att|].
  - rewrite cd_body_cdend. intros H. apply in_app_or in H as [H | H]; [|by apply IH].
    vm_compute in H. repeat (destruct H as [<- | H]; [reflexivity|]). destruct H.
  - rewrite cd_body_keep by assumption. intros [<- | H]; [|by apply IH].
    by apply cd_special_spec in Hc as [-> _].
Qed.

(** X2: whatever the input, the text either function returns holds no
    element of [_non_char]: each one has given way to a reference, made of
    legal characters. *)
Theorem escaped_text_holds_no_illegal_element (s : list Z) :
  (exists t, fst (_formatAttribute s) = inr t /\
             forall x, In x t -> in_class _non_char x = false) /\
  (exists t, fst (_formatElementText s) = inr t /\
             forall x, In x t -> in_class _non_char x = false).
Proof.
  rewrite formatAttribute_eq, formatElementText_eq. cbn [fst]. split.
  - eexists. split; [reflexivity|]. intros x H.
    apply in_app_or in H as [[<- | []] | H]; [reflexivity|].
    apply in_app_or in H as [H | [<- | []]]; [by apply (att_body_legal s) | reflexivity].
  - eexists. split; [reflexivity|]. apply cd_body_legal.
Qed.

(** ** Escaping what has been escaped *)

Lemma att_special_AMP_only (x : Z) :
  in_class _non_char x = false -> x <> Ch.LT -> x <> Ch.QUOT ->
  att_special x = (x =? Ch.AMP).
Proof.
  intros Hn H1 H2. unfold att_special. rewrite Hn.
  apply Z.eqb_neq in H1, H2. rewrite H1, H2. cbn. by rewrite orb_false_r.
Qed.

Lemma cd_special_AMP_only (x : Z) :
  in_class _non_char x = false -> x <> Ch.LT -> cd_special x = (x =? Ch.AMP).
Proof.
  intros Hn H1. unfold cd_special. rewrite Hn. apply Z.eqb_neq in H1. by rewrite H1.
Qed.

Lemma piece_text_AMP : piece_text (Match [Ch.AMP]) = u "&amp;".
Proof. unfold piece_text. by rewrite replacer_AMP. Qed.

Lemma piece_warnings_AMP : piece_warnings (Match [Ch.AMP]) = [].
Proof. unfold piece_warnings. by rewrite replacer_AMP. Qed.

Lemma att_again (t : list Z) :
  (forall x, In x t -> in_class _non_char x = false /\ x <> Ch.LT /\ x <> Ch.QUOT) ->
  att_body t = ampersands_escaped t /\ att_warnings t = [].
Proof.
  unfold att_body, att_warnings, ampersands_escaped. rewrite scan_att.
  induction t as [|c t IH]; intros H; [done|].
  destruct IH as [IH1 IH2]; [intros x Hx; apply H; by right|].
  destruct (H c (or_introl eq_refl)) as (Hn & H1 & H2).
  cbn [List.map concat flat_map]. rewrite IH1, IH2, (att_special_AMP_only c Hn H1 H2).
  destruct (Z.eqb_spec c Ch.AMP) as [-> | _]; [|done].
  by rewrite piece_text_AMP, piece_warnings_AMP.
Qed.

Lemma cd_again (t : list Z) :
  (forall x, In x t -> in_class _non_char x = false /\ x <> Ch.LT) ->
  ~ occurs cdend t ->
  cd_body t = ampersands_escaped t /\ cd_warnings t = [].
Proof.
  unfold cd_body, cd_warnings, ampersands_escaped.
  induction t as [| c t Hc IH | t IH | c t Hc Hs IH] using cd_scan_ind; intros H Ho.
  - done.
  - destruct IH as [IH1 IH2];
      [intros x Hx; apply H; by right | by apply not_occurs_tail in Ho |].
    destruct (H c (or_introl eq_refl)) as (Hn & H1).
    rewrite scan_cd_special by exact Hc. rewrite (cd_special_AMP_only c Hn H1) in Hc.
    apply Z.eqb_eq in Hc as ->.
    cbn [List.map concat flat_map]. rewrite IH1, IH2, piece_text_AMP, piece_warnings_AMP.
    done.
  - exfalso. apply Ho. by exists [], t.
  - destruct IH as [IH1 IH2];
      [intros x Hx; apply H; by right | by apply not_occurs_tail in Ho |].
    destruct (H c (or_introl eq_refl)) as (Hn & H1).
    rewrite scan_cd_keep by assumption. rewrite (cd_special_AMP_only c Hn H1) in Hc.
    cbn [List.map concat flat_map piece_text piece_warnings]. by rewrite IH1, IH2, Hc.
Qed.

(** X3: escaping an escaped text a second time rewrites its ampersands as
    [&amp;] and nothing else, and issues no warning, in both contexts: the
    first pass has left no [<], no illegal element, no double quote (in an
    attribute body) and no [cdend] (in character data). *)
Theorem escaping_twice_rewrites_ampersands (s : list Z) :
  (exists a ws,
     _formatAttribute s = (inr ([Ch.QUOT] ++ a ++ [Ch.QUOT]), ws) /\
     _formatAttribute a = (inr ([Ch.QUOT] ++ ampersands_escaped a ++ [Ch.QUOT]), [])) /\
  (exists t ws,
     _formatElementText s = (inr t, ws) /\
     _formatElementText t = (inr (ampersands_escaped t), [])).
Proof.
  split.
  - exists (att_body s), (att_warnings s). rewrite !formatAttribute_eq.
    split; [reflexivity|].
    destruct (att_again (att_body s)) as [-> ->]; [|reflexivity].
    intros x Hx. split; [by apply (att_body_legal s)|].
    split; intros ->; revert Hx; apply att_body_free; auto.
  - exists (cd_body s), (cd_warnings s). rewrite !formatElementText_eq.
    split; [reflexivity|].
    destruct (cd_again (cd_body s)) as [-> ->]; [| apply cd_body_no_cdend | reflexivity].
    intros x Hx. split; [by apply (cd_body_legal s)|].
    intros ->. revert Hx. apply cd_body_no_lt.
Qed.

(** ** The two contexts side by side *)

Lemma att_body_is_cd_body (s : list Z) :
  ~ In Ch.QUOT s -> ~ occurs cdend s ->
  att_body s = cd_body s /\ att_warnings s = cd_warnings s.
Proof.
  intros Hq Ho. rewrite att_warnings_count, cd_warnings_count. split; [|reflexivity].
  induction s as [| c t Hc IH | t IH | c t Hc Hs IH] using cd_scan_ind.
  - reflexivity.
  - rewrite att_body_cons, (cd_special_att c Hc), cd_body_special by exact Hc.
    rewrite IH; [reflexivity | intros H; apply Hq; by right | by apply not_occurs_tail in Ho].
  - exfalso. apply Ho. by exists [], t.
  - rewrite att_body_cons, cd_body_keep by assumption.
    assert (Ha : att_special c = false).
    { unfold att_special. apply cd_special_spec in Hc as (-> & H1 & H2).
      apply Z.eqb_neq in H1, H2. rewrite H1, H2. cbn.
      apply Z.eqb_neq. intros ->. apply Hq. by left. }
    rewrite Ha, IH; [reflexivity | intros H; apply Hq; by right | by apply not_occurs_tail in Ho].
Qed.

(** X4: on a string that holds no double quote and no [cdend], the two
    functions differ by the surrounding quotes only: the attribute value is
    the character data between two double quotes, with the same warnings. *)
Theorem attribute_is_quoted_character_data (s : list Z) :
  ~ In Ch.QUOT s -> ~ occurs cdend s ->
  exists t ws,
    _formatElementText s = (inr t, ws) /\
    _formatAttribute s = (inr ([Ch.QUOT] ++ t ++ [Ch.QUOT]), ws).
Proof.
  intros Hq Ho. exists (cd_body s), (cd_warnings s).
  rewrite formatElementText_eq, formatAttribute_eq.
  by destruct (att_body_is_cd_body s Hq Ho) as [-> ->].
Qed.

Lemma attribute_is_quoted_character_data_witness :
  ~ In Ch.QUOT (u "a<b&c") /\ ~ occurs cdend (u "a<b&c") /\
  exists t ws,
    _formatElementText (u "a<b&c") = (inr t, ws) /\
    _formatAttribute (u "a<b&c") = (inr ([Ch.QUOT] ++ t ++ [Ch.QUOT]), ws).
Proof.
  assert (H1 : ~ In Ch.QUOT (u "a<b&c")) by (vm_compute; lia).
  assert (H2 : ~ occurs cdend (u "a<b&c")).
  { apply (not_occurs_without Ch.GT); [vm_compute; tauto | vm_compute; lia]. }
  split; [exact H1|]. split; [exact H2|].
  exact (attribute_is_quoted_character_data (u "a<b&c") H1 H2).
Defined.

(** ** Concatenation *)

Lemma illegal_warnings_app (s1 s2 : list Z) :
  illegal_warnings (s1 ++ s2) = illegal_warnings s1 ++ illegal_warnings s2.
Proof.
  unfold illegal_warnings. by rewrite List.filter_app, length_app, replicate_add.
Qed.

Lemma cd_body_around_cdend (p q : list Z) :
  cd_body (p ++ cdend ++ q) = cd_body p ++ u "]]&gt;" ++ cd_body q.
Proof.
  rewrite cd_body_app, cd_body_cdend; [reflexivity|].
  intros [(p' & q' & _ & E) | (p' & q' & _ & E)]; discriminate.
Qed.

Lemma cd_body_before_brackets (p l : list Z) :
  l = [Ch.RB] \/ l = [Ch.RB; Ch.RB] -> cd_body (p ++ l) = cd_body p ++ l.
Proof.
  intros Hl. rewrite cd_body_app.
  - by destruct Hl as [-> | ->].
  - intros [(p' & q' & _ & E) | (p' & q' & _ & E)]; destruct Hl as [-> | ->]; discriminate.
Qed.

Lemma cd_body_GT (q : list Z) : cd_body (Ch.GT :: q) = Ch.GT :: cd_body q.
Proof. by apply cd_body_keep. Qed.

Lemma cd_body_RB_GT (q : list Z) : cd_body (Ch.RB :: Ch.GT :: q) = Ch.RB :: Ch.GT :: cd_body q.
Proof. rewrite cd_body_keep by reflexivity. by rewrite cd_body_GT. Qed.

Lemma cd_body_straddled (s1 s2 : list Z) :
  straddles s1 s2 -> cd_body (s1 ++ s2) <> cd_body s1 ++ cd_body s2.
Proof.
  intros [(p & q & -> & ->) | (p & q & -> & ->)] E.
  - rewrite <- app_assoc in E. change ([Ch.RB; Ch.RB] ++ Ch.GT :: q) with (cdend ++ q) in E.
    rewrite cd_body_around_cdend, cd_body_before_brackets, cd_body_GT in E by auto.
    rewrite <- app_assoc in E. apply app_inv_head in E. discriminate.
  - rewrite <- app_assoc in E. change ([Ch.RB] ++ Ch.RB :: Ch.GT :: q) with (cdend ++ q) in E.
    rewrite cd_body_around_cdend, cd_body_before_brackets, cd_body_RB_GT in E by auto.
    rewrite <- app_assoc in E. apply app_inv_head in E. discriminate.
Qed.

(** X5: [_formatAttribute] escapes a concatenation part by part, always.
    [_formatElementText] does so exactly when no [cdend] lies across the
    border between the parts; the warnings of the whole are those of the
    parts in either case. *)
Theorem escaping_of_a_concatenation (s1 s2 : list Z) :
  (exists a1 w1 a2 w2,
     _formatAttribute s1 = (inr ([Ch.QUOT] ++ a1 ++ [Ch.QUOT]), w1) /\
     _formatAttribute s2 = (inr ([Ch.QUOT] ++ a2 ++ [Ch.QUOT]), w2) /\
     _formatAttribute (s1 ++ s2) = (inr ([Ch.QUOT] ++ (a1 ++ a2) ++ [Ch.QUOT]), w1 ++ w2)) /\
  (exists t1 w1 t2 w2,
     _formatElementText s1 = (inr t1, w1) /\
     _formatElementText s2 = (inr t2, w2) /\
     snd (_formatElementText (s1 ++ s2)) = w1 ++ w2 /\
     (fst (_formatElementText (s1 ++ s2)) = inr (t1 ++ t2) <-> ~ straddles s1 s2)).
Proof.
  split.
  - exists (att_body s1), (att_warnings s1), (att_body s2), (att_warnings s2).
    rewrite !formatAttribute_eq. by rewrite att_body_app, att_warnings_app.
  - exists (cd_body s1), (cd_warnings s1), (cd_body s2), (cd_warnings s2).
    rewrite !formatElementText_eq. cbn [fst snd].
    split; [reflexivity|]. split; [reflexivity|].
    split; [by rewrite !cd_warnings_count, illegal_warnings_app|]. split.
    + intros E Hs. injection E as E. by apply (cd_body_straddled s1 s2).
    + intros Hs. by rewrite cd_body_app.
Qed.

(** ** The apostrophe *)

(** X6: the table has an entry for the apostrophe, and neither function ever
    uses it: an apostrophe anywhere in a string is copied, and what stands
    before and after it is escaped as on its own. *)
Theorem apostrophe_is_never_escaped (s1 s2 : list Z) :
  _replacements !! [Ch.APOS] = Some (u "&apos;") /\
  (exists a1 w1 a2 w2,
     _formatAttribute s1 = (inr ([Ch.QUOT] ++ a1 ++ [Ch.QUOT]), w1) /\
     _formatAttribute s2 = (inr ([Ch.QUOT] ++ a2 ++ [Ch.QUOT]), w2) /\
     _formatAttribute (s1 ++ Ch.APOS :: s2)
     = (inr ([Ch.QUOT] ++ (a1 ++ Ch.APOS :: a2) ++ [Ch.QUOT]), w1 ++ w2)) /\
  (exists t1 w1 t2 w2,
     _formatElementText s1 = (inr t1, w1) /\
     _formatElementText s2 = (inr t2, w2) /\
     _formatElementText (s1 ++ Ch.APOS :: s2) = (inr (t1 ++ Ch.APOS :: t2), w1 ++ w2)).
Proof.
  split; [by rewrite replacements_single|]. split.
  - exists (att_body s1), (att_warnings s1), (att_body s2), (att_warnings s2).
    rewrite !formatAttribute_eq. split; [reflexivity|]. split; [reflexivity|].
    change (Ch.APOS :: s2) with ([Ch.APOS] ++ s2).
    by rewrite !att_body_app, !att_warnings_app.
  - exists (cd_body s1), (cd_warnings s1), (cd_body s2), (cd_warnings s2).
    rewrite !formatElementText_eq. split; [reflexivity|]. split; [reflexivity|].
    assert (Hn : ~ straddles s1 (Ch.APOS :: s2)).
    { intros [(p & q & _ & E) | (p & q & _ & E)]; discriminate. }
    rewrite (cd_body_app _ _ Hn), (cd_warnings_app _ _ Hn).
    unfold cd_body at 2, cd_warnings at 2.
    by rewrite (scan_cd_keep Ch.APOS s2).
Qed.

(** ** Nothing is lost *)

Lemma special_text_exact (c : Z) :
  att_special c = true ->
  piece_text (Match [c]) = Ch.AMP :: special_name c ++ [Ch.SEMI].
Proof.
  intros H. unfold piece_text, special_name, att_special in *.
  destruct (in_class _non_char c) eqn:En.
  - by rewrite (replacer_non_char c En).
  - cbn [orb] in H. rewrite !orb_true_iff, !Z.eqb_eq in H.
    destruct H as [[-> | ->] | ->].
    + by rewrite replacer_LT.
    + by rewrite replacer_AMP.
    + by rewrite replacer_QUOT.
Qed.

Lemma hex_digit_not_semi (h : list Z) : forallb is_hex_digit h = true -> ~ In Ch.SEMI h.
Proof.
  intros Hall Hin. apply (proj1 (forallb_forall _ _) Hall) in Hin. discriminate.
Qed.

Lemma special_name_no_semi (c : Z) : att_special c = true -> ~ In Ch.SEMI (special_name c).
Proof.
  intros H. unfold special_name, att_special in *.
  destruct (in_class _non_char c) eqn:En.
  - apply non_char_spec in En.
    destruct (format_x_digits c ltac:(lia)) as (_ & Hall & _).
    intros [E | [E | Hin]]; [discriminate | discriminate |].
    by apply (hex_digit_not_semi _ Hall).
  - destruct (c =? Ch.LT); [vm_compute; lia|].
    destruct (c =? Ch.AMP); vm_compute; lia.
Qed.

Lemma special_name_inj (c1 c2 : Z) :
  att_special c1 = true -> att_special c2 = true ->
  special_name c1 = special_name c2 -> c1 = c2.
Proof.
  unfold special_name, att_special. intros H1 H2.
  destruct (in_class _non_char c1) eqn:E1, (in_class _non_char c2) eqn:E2;
    cbn [orb] in H1, H2.
  - intros E. apply app_inv_head in E.
    apply non_char_spec in E1, E2.
    destruct (format_x_digits c1 ltac:(lia)) as (_ & _ & V1).
    destruct (format_x_digits c2 ltac:(lia)) as (_ & _ & V2).
    rewrite <- V1, <- V2. by rewrite E.
  - destruct (c2 =? Ch.LT); [discriminate|]. destruct (c2 =? Ch.AMP); discriminate.
  - destruct (c1 =? Ch.LT); [discriminate|]. destruct (c1 =? Ch.AMP); discriminate.
  - rewrite !orb_true_iff, !Z.eqb_eq in H1, H2.
    destruct H1 as [[-> | ->] | ->], H2 as [[-> | ->] | ->];
      try reflexivity; intros E; vm_compute in E; discriminate.
Qed.

Lemma special_name_not_gt (c : Z) : att_special c = true -> special_name c <> u "gt".
Proof.
  unfold special_name, att_special. intros H.
  destruct (in_class _non_char c); [discriminate|]. cbn [orb] in H.
  destruct (c =? Ch.LT); [discriminate|]. destruct (c =? Ch.AMP); discriminate.
Qed.

Lemma semi_split (b1 b2 r1 r2 : list Z) :
  ~ In Ch.SEMI b1 -> ~ In Ch.SEMI b2 ->
  b1 ++ Ch.SEMI :: r1 = b2 ++ Ch.SEMI :: r2 -> b1 = b2 /\ r1 = r2.
Proof.
  revert b2. induction b1 as [|x b1 IH]; intros [|y b2] H1 H2 E; cbn in E.
  - injection E as ->. by split.
  - injection E as <- _. exfalso. apply H2. by left.
  - injection E as -> _. exfalso. apply H1. by left.
  - injection E as -> E. destruct (IH b2) as [-> ->]; [| |exact E|by split].
    + intros H. apply H1. by right.
    + intros H. apply H2. by right.
Qed.

Lemma special_text_prefix_free (c1 c2 : Z) (r1 r2 : list Z) :
  att_special c1 = true -> att_special c2 = true ->
  piece_text (Match [c1]) ++ r1 = piece_text (Match [c2]) ++ r2 ->
  c1 = c2 /\ r1 = r2.
Proof.
  intros H1 H2 E. rewrite !special_text_exact in E by assumption.
  cbn [app] in E. injection E as E. rewrite <- !app_assoc in E. cbn [app] in E.
  apply semi_split in E as [E ->]; [|by apply special_name_no_semi..].
  split; [by apply special_name_inj | reflexivity].
Qed.

Lemma att_body_inj (s1 s2 : list Z) : att_body s1 = att_body s2 -> s1 = s2.
Proof.
  revert s2. induction s1 as [|c1 t1 IH]; intros [|c2 t2]; rewrite ?att_body_cons.
  - done.
  - change (att_body []) with (@nil Z).
    destruct (att_special c2) eqn:E2; [rewrite special_text_exact by exact E2|]; discriminate.
  - change (att_body []) with (@nil Z).
    destruct (att_special c1) eqn:E1; [rewrite special_text_exact by exact E1|]; discriminate.
  - destruct (att_special c1) eqn:E1, (att_special c2) eqn:E2; intros E.
    + apply special_text_prefix_free in E as [-> E]; [|assumption..].
      by rewrite (IH t2 E).
    + rewrite special_text_exact in E by exact E1. injection E as <- _. discriminate.
    + rewrite special_text_exact in E by exact E2. injection E as -> _. discriminate.
    + injection E as -> E. by rewrite (IH t2 E).
Qed.

(** X8: [_formatAttribute] loses nothing: two strings that give the same
    attribute value are the same string. *)
Theorem attribute_escaping_is_injective (s1 s2 : list Z) :
  fst (_formatAttribute s1) = fst (_formatAttribute s2) -> s1 = s2.
Proof.
  rewrite !formatAttribute_eq. cbn [fst]. intros E. injection E as E.
  apply app_inv_tail in E. by apply att_body_inj.
Qed.

Lemma attribute_escaping_is_injective_witness :
  fst (_formatAttribute (u "a<b")) = fst (_formatAttribute ([97] ++ [Ch.LT] ++ [98])) /\
  u "a<b" = [97] ++ [Ch.LT] ++ [98].
Proof.
  split; [reflexivity|].
  apply (attribute_escaping_is_injective (u "a<b") ([97] ++ [Ch.LT] ++ [98])).
  reflexivity.
Defined.

Lemma cd_body_not_bracket_gt (t r : list Z) : cd_body t <> Ch.RB :: u "&gt;" ++ r.
Proof.
  intros E.
  destruct (cd_body_cases t)
    as [-> | [(c & t1 & -> & Hc & E1) | [(t1 & -> & E1) | (c & t1 & -> & Hc & Hs & E1)]]].
  - discriminate.
  - rewrite E1, special_text_exact in E by (by apply cd_special_att). discriminate.
  - rewrite E1 in E. discriminate.
  - rewrite E1 in E. injection E as -> E. clear E1 Hc Hs.
    destruct (cd_body_cases t1)
      as [-> | [(c & t2 & -> & Hc & E1) | [(t2 & -> & E1) | (c & t2 & -> & Hc & Hs & E1)]]].
    + discriminate.
    + rewrite E1, special_text_exact in E by (by apply cd_special_att).
      change (u "&gt;" ++ r) with (Ch.AMP :: u "gt" ++ Ch.SEMI :: r) in E.
      injection E as E. rewrite <- app_assoc in E. cbn [app] in E.
      apply (semi_split (special_name c) (u "gt") _ r) in E as [E _].
      * by apply (special_name_not_gt c); [apply cd_special_att|].
      * by apply special_name_no_semi, cd_special_att.
      * vm_compute. lia.
    + rewrite E1 in E. discriminate.
    + rewrite E1 in E. injection E as -> _. discriminate.
Qed.

Lemma cd_body_inj (s1 : list Z) : forall s2, cd_body s1 = cd_body s2 -> s1 = s2.
Proof.
  induction s1 as [| c1 t1 H1 IH | t1 IH | c1 t1 H1 Hs1 IH] using cd_scan_ind; intros s2 E;
    destruct (cd_body_cases s2)
      as [-> | [(c2 & t2 & -> & H2 & E2) | [(t2 & -> & E2) | (c2 & t2 & -> & H2 & Hs2 & E2)]]];
    try (rewrite E2 in E; clear E2).
  - reflexivity.
  - rewrite special_text_exact in E by (by apply cd_special_att). discriminate.
  - discriminate.
  - discriminate.
  - rewrite cd_body_special, special_text_exact in E by (by try apply cd_special_att).
    discriminate.
  - rewrite cd_body_special in E by exact H1.
    apply special_text_prefix_free in E as [-> E]; [|by apply cd_special_att..].
    by rewrite (IH t2 E).
  - rewrite cd_body_special, special_text_exact in E by (by try apply cd_special_att).
    discriminate.
  - rewrite cd_body_special, special_text_exact in E by (by try apply cd_special_att).
    injection E as <- _. discriminate.
  - rewrite cd_body_cdend in E. discriminate.
  - rewrite cd_body_cdend, special_text_exact in E by (by apply cd_special_att).
    discriminate.
  - rewrite cd_body_cdend in E. apply app_inv_head in E. by rewrite (IH t2 E).
  - rewrite cd_body_cdend in E. exfalso.
    change (u "]]&gt;" ++ cd_body t1) with (Ch.RB :: Ch.RB :: u "&gt;" ++ cd_body t1) in E.
    injection E as _ E. symmetry in E. by apply cd_body_not_bracket_gt in E.
  - rewrite cd_body_keep in E by assumption. discriminate.
  - rewrite cd_body_keep, special_text_exact in E by (by try apply cd_special_att).
    injection E as -> _. discriminate.
  - rewrite cd_body_keep in E by assumption. exfalso.
    change (u "]]&gt;" ++ cd_body t2) with (Ch.RB :: Ch.RB :: u "&gt;" ++ cd_body t2) in E.
    injection E as _ E. by apply cd_body_not_bracket_gt in E.
  - rewrite cd_body_keep in E by assumption. injection E as -> E. by rewrite (IH t2 E).
Qed.

(** X9: [_formatElementText] loses nothing either, the rewriting of [cdend]
    included: two strings that give the same character data are the same
    string. *)
Theorem character_data_escaping_is_injective (s1 s2 : list Z) :
  fst (_formatElementText s1) = fst (_formatElementText s2) -> s1 = s2.
Proof.
  rewrite !formatElementText_eq. cbn [fst]. intros E. injection E as E.
  by apply cd_body_inj.
Qed.

Lemma character_data_escaping_is_injective_witness :
  fst (_formatElementText (u "a]]>b")) = fst (_formatElementText (u "a" ++ cdend ++ u "b")) /\
  u "a]]>b" = u "a" ++ cdend ++ u "b".
Proof.
  split; [reflexivity|].
  apply (character_data_escaping_is_injective (u "a]]>b") (u "a" ++ cdend ++ u "b")).
  reflexivity.
Defined.

(** * Further properties of the tree writer *)

(** ** Metatables without a table *)

Lemma bind_ext {A B : Type} (m : IO A) (k1 k2 : A -> IO B) (w : World) :
  (forall a w', k1 a w' = k2 a w') -> bind (M := IO) m k1 w = bind (M := IO) m k2 w.
Proof. intros H. cbn. destruct (m w) as [[e | a] w']; [reflexivity | apply H]. Qed.

Lemma for_each_ext {A : Type} (l : list A) (b1 b2 : A -> IO unit) :
  (forall x, In x l -> forall w, b1 x w = b2 x w) ->
  forall w, for_each l b1 w = for_each l b2 w.
Proof.
  induction l as [|x l IH]; intros H w; [reflexivity|].
  cbn [for_each]. rewrite (bind_ext _ _ (fun _ => for_each l b2)).
  - cbn. by rewrite (H x (or_introl eq_refl)).
  - intros _ w'. apply IH. intros y Hy. apply H. by right.
Qed.

(** X10: the document depends on the metatables through the keys of the
    tables only: two databases with the same tables, whose metatables agree
    at the key of every table, are written alike, on any sink. A metatable
    under a key that no table has is never written. *)
Theorem metatables_are_read_at_table_keys_only (st : Storage) (db1 db2 : MorkDatabase)
    (out : option string) (w : World) :
  tables db1 = tables db2 ->
  (forall t, In t (tables db1) ->
     metaTables db1 !! (fst (fst t), snd (fst t))
     = metaTables db2 !! (fst (fst t), snd (fst t))) ->
  _outputHelper st db1 out w = _outputHelper st db2 out w.
Proof.
  intros Ht Hm. unfold _outputHelper. cbv zeta.
  apply bind_ext. intros f w1. apply bind_ext. intros _ w2. apply bind_ext. intros _ w3.
  rewrite <- Ht.
  cbn [bind IO_monad]. rewrite (for_each_ext (tables db1) _
    (fun t => _writeTable st f (fst (fst t)) (snd (fst t)) (snd t)
                (metaTables db2 !! (fst (fst t), snd (fst t))) 1)).
  - reflexivity.
  - intros t Hin w'. by rewrite (Hm t Hin).
Qed.

Lemma metatables_are_read_at_table_keys_only_witness :
  tables sample_db = tables sample_db_with_orphan /\
  _outputHelper sound_storage sample_db None empty_world
  = _outputHelper sound_storage sample_db_with_orphan None empty_world.
Proof.
  split; [reflexivity|].
  apply (metatables_are_read_at_table_keys_only sound_storage sample_db
           sample_db_with_orphan None empty_world); [reflexivity|].
  intros t Hin. unfold sample_db_with_orphan. cbn [metaTables].
  rewrite lookup_insert_ne; [reflexivity|].
  destruct Hin as [<- | [<- | []]]; cbn [fst snd]; intros E; vm_compute in E; discriminate.
Defined.

(** ** What the writer leaves alone *)

Lemma confined_ret {A : Type} (f : string) (a : A) : confined f (ret (M := IO) a).
Proof. intros w. split; [done|]. exists []. cbn. by rewrite app_nil_r. Qed.

Lemma confined_bind {A B : Type} (f : string) (m : IO A) (k : A -> IO B) :
  confined f m -> (forall a, confined f (k a)) -> confined f (bind (M := IO) m k).
Proof.
  intros Hm Hk w. destruct (Hm w) as [Hf [ws Hw]]. cbn.
  destruct (m w) as [[e | a] w1]; cbn [snd] in *.
  - split; [exact Hf | by exists ws].
  - destruct (Hk a w1) as [Hf' [ws' Hw']]. split.
    + intros p Hp. by rewrite Hf', Hf.
    + exists (ws ++ ws'). by rewrite Hw', Hw, app_assoc.
Qed.

Lemma confined_escaping {A : Type} (f : string) (m : W A) : confined f (escaping m).
Proof. intros w. split; [done|]. by exists (snd m). Qed.

Lemma confined_for_each {A : Type} (f : string) (body : A -> IO unit) (l : list A) :
  (forall x, confined f (body x)) -> confined f (for_each l body).
Proof.
  intros Hb. induction l as [|x l IH]; [apply confined_ret|].
  cbn [for_each]. apply confined_bind; [apply Hb | intros _; exact IH].
Qed.

Section Confined.

Variable st : Storage.

Lemma confined_open (f : string) : confined f (codecs_open st f).
Proof.
  intros w. unfold codecs_open. destruct (can_open st f); cbn [snd files warned].
  - split; [intros p Hp; by rewrite lookup_insert_ne | exists []; by rewrite app_nil_r].
  - split; [done | exists []; by rewrite app_nil_r].
Qed.

Lemma confined_write (f : string) (t : list Z) : confined f (write st f t).
Proof.
  intros w. unfold write.
  destruct (files w !! f) as [file|]; [destruct (closed file); [|destruct (can_write st f _ t)]|];
    cbn [snd files warned];
    (split; [intros p Hp; by rewrite ?lookup_insert_ne | exists []; by rewrite app_nil_r]).
Qed.

Lemma confined_close (f : string) : confined f (close f).
Proof.
  intros w. unfold close. destruct (files w !! f) as [file|]; cbn [snd files warned];
    (split; [intros p Hp; by rewrite ?lookup_insert_ne | exists []; by rewrite app_nil_r]).
Qed.

Lemma confined_print (f : string) (t : list Z) : confined f (print_to st f t).
Proof. unfold print_to. apply confined_bind; [|intros _]; apply confined_write. Qed.

Lemma confined_writeCell (f : string) (column value : list Z) (n : nat) :
  confined f (_writeCell st f column value n).
Proof.
  unfold _writeCell.
  apply confined_bind; [apply confined_escaping | intros a].
  apply confined_bind; [apply confined_escaping | intros t].
  apply confined_print.
Qed.

Lemma confined_writeRow (f : string) (namespace oid : list Z) (row : Row) (n : nat) :
  confined f (_writeRow st f namespace oid row n).
Proof.
  unfold _writeRow.
  apply confined_bind; [apply confined_escaping | intros ns].
  apply confined_bind; [apply confined_escaping | intros id].
  apply confined_bind; [apply confined_print | intros _].
  apply confined_bind; [|intros _; apply confined_print].
  apply confined_for_each. intros cv. apply confined_writeCell.
Qed.

Lemma confined_writeMetaTable (f : string) (meta : MetaTable) (n : nat) :
  confined f (_writeMetaTable st f meta n).
Proof.
  unfold _writeMetaTable.
  apply confined_bind; [apply confined_print | intros _].
  apply confined_bind; [apply confined_for_each; intros cv; apply confined_writeCell | intros _].
  apply confined_bind; [apply confined_for_each; intros r; apply confined_writeRow | intros _].
  apply confined_print.
Qed.

Lemma confined_writeTable (f : string) (namespace oid : list Z) (table : Table)
    (meta : option MetaTable) (n : nat) :
  confined f (_writeTable st f namespace oid table meta n).
Proof.
  unfold _writeTable.
  apply confined_bind; [apply confined_escaping | intros ns].
  apply confined_bind; [apply confined_escaping | intros id].
  apply confined_bind; [apply confined_print | intros _].
  apply confined_bind; [apply confined_for_each; intros r; apply confined_writeRow | intros _].
  apply confined_bind; [|intros _; apply confined_print].
  destruct meta as [meta|]; [apply confined_writeMetaTable | apply confined_ret].
Qed.

Lemma confined_after_open {B : Type} (f : string) (k : string -> IO B) :
  confined f (k f) -> confined f (bind (M := IO) (codecs_open st f) k).
Proof.
  intros Hk w. cbn. unfold codecs_open. destruct (can_open st f); cbn [snd].
  - destruct (Hk {| files := <[ f := {| data := []; closed := false |} ]> (files w);
                    warned := warned w |}) as [Hf Hw].
    cbn [files warned] in Hf, Hw. split; [|exact Hw].
    intros p Hp. by rewrite Hf, lookup_insert_ne.
  - split; [done | exists []; by rewrite app_nil_r].
Qed.

End Confined.

(** X11: whatever the sink does and however the call ends, [_outputHelper]
    touches no file but the one it was asked to write, and takes no warning
    back: the log it leaves is the one it found, with its own warnings
    behind. *)
Theorem output_is_confined_to_its_file (st : Storage) (db : MorkDatabase)
    (out : option string) (w : World) :
  (forall p, p <> default "mork.xml"%string out ->
     files (snd (_outputHelper st db out w)) !! p = files w !! p) /\
  exists ws, warned (snd (_outputHelper st db out w)) = warned w ++ ws.
Proof.
  revert w. change (confined (default "mork.xml"%string out) (_outputHelper st db out)).
  unfold _outputHelper. cbv zeta.
  apply confined_after_open.
  apply confined_bind; [apply confined_print | intros _].
  apply confined_bind; [apply confined_print | intros _].
  apply confined_bind; [apply confined_for_each; intros t; apply confined_writeTable | intros _].
  apply confined_bind; [apply confined_print | intros _].
  apply confined_close.
Qed.

(** ** What a failed write leaves behind *)

Lemma appends_ret {A : Type} (f : string) (a : A) : appends f (ret (M := IO) a) [] false.
Proof. intros w d Hd. cbn. by rewrite app_nil_r. Qed.

Lemma appends_bind {A B : Type} (f : string) (m : IO A) (k : A -> IO B)
    (T1 T2 : list Z) (c : bool) :
  appends f m T1 false -> (forall a, appends f (k a) T2 c) ->
  appends f (bind (M := IO) m k) (T1 ++ T2) c.
Proof.
  intros Hm Hk w d Hd. specialize (Hm w d Hd). cbn.
  destruct (m w) as [[e | a] w1].
  - destruct Hm as (-> & P & r & -> & Hf). split; [reflexivity|].
    exists P, (r ++ T2). split; [by rewrite app_assoc | exact Hf].
  - specialize (Hk a w1 (d ++ T1) Hm).
    destruct (k a w1) as [[e | b] w2].
    + destruct Hk as (-> & P & r & -> & Hf). split; [reflexivity|].
      exists (T1 ++ P), r. split; [by rewrite app_assoc | by rewrite app_assoc].
    + by rewrite app_assoc.
Qed.

Lemma appends_escaping_attribute {B : Type} (f : string) (s : list Z)
    (k : list Z -> IO B) (T : list Z) (c : bool) :
  appends f (k (escapeAttributeValue s)) T c ->
  appends f (bind (M := IO) (escaping (_formatAttribute s)) k) T c.
Proof.
  intros Hk w d Hd. rewrite (bind_run _ _ _ _ _ (escaping_attribute s w)).
  by apply Hk.
Qed.

Lemma appends_escaping_text {B : Type} (f : string) (s : list Z)
    (k : list Z -> IO B) (T : list Z) (c : bool) :
  appends f (k (escapeCharData s)) T c ->
  appends f (bind (M := IO) (escaping (_formatElementText s)) k) T c.
Proof.
  intros Hk w d Hd. rewrite (bind_run _ _ _ _ _ (escaping_text s w)).
  by apply Hk.
Qed.

Lemma appends_for_each {A : Type} (f : string) (body : A -> IO unit)
    (text : A -> list Z) (l : list A) :
  (forall x, appends f (body x) (text x) false) ->
  appends f (for_each l body) (concat (List.map text l)) false.
Proof.
  intros Hb. induction l as [|x l IH]; [apply appends_ret|].
  cbn [for_each List.map concat]. apply appends_bind; [apply Hb | intros _; exact IH].
Qed.

Lemma appends_eq {A : Type} (f : string) (m : IO A) (T T' : list Z) (c : bool) :
  T = T' -> appends f m T c -> appends f m T' c.
Proof. by intros ->. Qed.

Section Appends.

Variable st : Storage.

Lemma appends_write (f : string) (t : list Z) : appends f (write st f t) t false.
Proof.
  intros w d Hd. unfold write. rewrite Hd. cbn [closed data].
  destruct (can_write st f d t).
  - cbn [files]. apply lookup_insert_eq.
  - split; [reflexivity|]. exists [], t. split; [reflexivity | by rewrite app_nil_r].
Qed.

Lemma appends_print (f : string) (t : list Z) :
  appends f (print_to st f t) (t ++ [Ch.LF]) false.
Proof. unfold print_to. apply appends_bind; [|intros _]; apply appends_write. Qed.

Lemma appends_close (f : string) : appends f (close f) [] true.
Proof.
  intros w d Hd. unfold close. rewrite Hd. cbn [data files].
  rewrite app_nil_r. apply lookup_insert_eq.
Qed.

Lemma appends_writeCell (f : string) (cv : list Z * list Z) (n : nat) :
  appends f (_writeCell st f (fst cv) (snd cv) n) (unlines [cell_line n cv]) false.
Proof.
  unfold _writeCell.
  apply appends_escaping_attribute, appends_escaping_text.
  eapply appends_eq; [|apply appends_print].
  unfold cell_line, indentation, _indentStr.
  rewrite unlines_cons, unlines_nil, app_nil_r. by rewrite <- !app_assoc.
Qed.

Lemma appends_cells (f : string) (row : Row) (n : nat) :
  appends f (for_each row (fun cv => _writeCell st f (fst cv) (snd cv) n))
          (unlines (List.map (cell_line n) row)) false.
Proof.
  eapply appends_eq;
    [|apply (appends_for_each f _ (fun cv => unlines [cell_line n cv]));
      intros cv; apply appends_writeCell].
  induction row as [|cv row IH]; [reflexivity|].
  cbn [List.map concat]. by rewrite IH, <- unlines_app.
Qed.

Lemma appends_writeRow (f : string) (r : RowEntry) (n : nat) :
  appends f (_writeRow st f (fst (fst r)) (snd (fst r)) (snd r) n)
          (unlines (row_lines n r)) false.
Proof.
  unfold _writeRow.
  apply appends_escaping_attribute, appends_escaping_attribute.
  eapply appends_eq;
    [|apply appends_bind; [apply appends_print | intros _];
      apply appends_bind; [apply appends_cells | intros _]; apply appends_print].
  unfold row_lines, indentation, _indentStr.
  rewrite !unlines_app, !unlines_cons, !unlines_nil, !app_nil_r.
  by rewrite <- !app_assoc.
Qed.

Lemma appends_rows (f : string) (l : list RowEntry) (n : nat) :
  appends f (for_each l (fun r => _writeRow st f (fst (fst r)) (snd (fst r)) (snd r) n))
          (unlines (concat (List.map (row_lines n) l))) false.
Proof.
  eapply appends_eq;
    [|apply (appends_for_each f _ (fun r => unlines (row_lines n r)));
      intros r; apply appends_writeRow].
  by rewrite unlines_concat, map_map.
Qed.

Lemma appends_writeMetaTable (f : string) (meta : MetaTable) (n : nat) :
  appends f (_writeMetaTable st f meta n) (unlines (metatable_lines n meta)) false.
Proof.
  unfold _writeMetaTable.
  eapply appends_eq;
    [|apply appends_bind; [apply appends_print | intros _];
      apply appends_bind; [apply appends_cells | intros _];
      apply appends_bind; [apply appends_rows | intros _]; apply appends_print].
  unfold metatable_lines, indentation, _indentStr.
  rewrite !unlines_app, !unlines_cons, !unlines_nil, !app_nil_r.
  by rewrite <- !app_assoc.
Qed.

Lemma appends_writeTable (f : string) (namespace oid : list Z) (table : Table)
    (meta : option MetaTable) (n : nat) :
  appends f (_writeTable st f namespace oid table meta n)
          (unlines (table_lines n namespace oid table meta)) false.
Proof.
  unfold _writeTable.
  apply appends_escaping_attribute, appends_escaping_attribute.
  destruct meta as [meta|].
  - eapply appends_eq;
      [|apply appends_bind; [apply appends_print | intros _];
        apply appends_bind; [apply appends_rows | intros _];
        apply appends_bind; [apply appends_writeMetaTable | intros _]; apply appends_print].
    unfold table_lines, indentation, _indentStr.
    rewrite !unlines_app, !unlines_cons, !unlines_nil, !app_nil_r.
    by rewrite <- !app_assoc.
  - eapply appends_eq;
      [|apply appends_bind; [apply appends_print | intros _];
        apply appends_bind; [apply appends_rows | intros _];
        apply appends_bind; [apply appends_ret | intros _]; apply appends_print].
    unfold table_lines, indentation, _indentStr.
    rewrite !unlines_app, !unlines_cons, !unlines_nil, !app_nil_r.
    by rewrite <- !app_assoc.
Qed.

Lemma appends_document (db : MorkDatabase) (f : string) :
  appends f
    (print_to st f (u "<?xml version=" ++ [Ch.QUOT] ++ u "1.0" ++ [Ch.QUOT]
                    ++ u " encoding=" ++ [Ch.QUOT] ++ u "UTF-8" ++ [Ch.QUOT] ++ u " ?>") ;;
     print_to st f (u "<morkxml>") ;;
     for_each (tables db) (fun t =>
       _writeTable st f (fst (fst t)) (snd (fst t)) (snd t)
                   (metaTables db !! (fst (fst t), snd (fst t))) 1) ;;
     print_to st f (u "</morkxml>") ;;
     close f)
    (unlines (document_lines db)) true.
Proof.
  eapply appends_eq;
    [|apply appends_bind; [apply appends_print | intros _];
      apply appends_bind; [apply appends_print | intros _];
      apply appends_bind;
        [apply (appends_for_each f _
                  (fun t => unlines (table_lines 1 (fst (fst t)) (snd (fst t)) (snd t)
                                       (metaTables db !! (fst (fst t), snd (fst t))))));
         intros t; apply appends_writeTable | intros _];
      apply appends_bind; [apply appends_print | intros _]; apply appends_close].
  unfold document_lines, xml_declaration.
  rewrite !unlines_app, !unlines_cons, !unlines_nil, unlines_concat, map_map, !app_nil_r.
  by rewrite <- !app_assoc.
Qed.

End Appends.

(** X12: on any sink, [_outputHelper] ends in one of three ways. It returns,
    and the file holds the whole document and is closed. Or the file cannot
    be opened: IOError, and nothing has changed. Or a write fails: IOError,
    the file is open, and what it holds is the beginning of the document, up
    to the write that failed; what it held before the call is gone. *)
Theorem a_failed_write_leaves_the_beginning_of_the_document (st : Storage)
    (db : MorkDatabase) (out : option string) (w : World) :
  match _outputHelper st db out w with
  | (inr _, w') =>
      files w' !! default "mork.xml"%string out
      = Some {| data := unlines (document_lines db); closed := true |}
  | (inl e, w') =>
      e = IOError /\
      ((can_open st (default "mork.xml"%string out) = false /\ w' = w) \/
       (can_open st (default "mork.xml"%string out) = true /\
        exists P k, unlines (document_lines db) = P ++ k /\
                    files w' !! default "mork.xml"%string out
                    = Some {| data := P; closed := false |}))
  end.
Proof.
  unfold _outputHelper. cbv zeta.
  set (f := default "mork.xml"%string out).
  destruct (can_open st f) eqn:Eo.
  - set (w0 := {| files := <[ f := {| data := []; closed := false |} ]> (files w);
                  warned := warned w |}).
    assert (Ho : codecs_open st f w = (inr f, w0))
      by (unfold codecs_open; by rewrite Eo).
    rewrite (bind_run _ _ _ _ _ Ho).
    assert (H0 : files w0 !! f = Some {| data := []; closed := false |})
      by apply lookup_insert_eq.
    pose proof (appends_document st db f w0 [] H0) as H. revert H.
    match goal with |- context [bind ?m ?k w0] => generalize (bind m k w0) end.
    intros [[e | []] w1] H; [|exact H].
    destruct H as (-> & P & k & E & H). split; [reflexivity | right].
    split; [reflexivity|]. by exists P, k.
  - assert (Ho : codecs_open st f w = (inl IOError, w))
      by (unfold codecs_open; by rewrite Eo).
    rewrite (bind_fail _ _ _ _ _ Ho). split; [reflexivity | left; by split].
Qed.

(** ** Where the elements of escaped text come from *)

Lemma special_text_alphabet (c x : Z) :
  att_special c = true -> In x (piece_text (Match [c])) -> x = Ch.AMP \/ ref_alpha x = true.
Proof.
  intros H Hin. destruct (special_text c H) as (r & E & _ & Hall). rewrite E in Hin.
  destruct Hin as [<- | Hin]; [by left | right].
  by apply (proj1 (forallb_forall _ _) Hall).
Qed.

Lemma att_body_origin (s : list Z) (x : Z) :
  In x (att_body s) -> In x s \/ x = Ch.AMP \/ ref_alpha x = true.
Proof.
  induction s as [|c t IH]; [intros []|].
  rewrite att_body_cons. intros H. apply in_app_or in H as [H | H].
  - destruct (att_special c) eqn:E.
    + right. by apply (special_text_alphabet c).
    + destruct H as [<- | []]. left. by left.
  - destruct (IH H) as [Hin | Hr]; [left; by right | by right].
Qed.

Lemma cd_body_origin (s : list Z) (x : Z) :
  In x (cd_body s) -> In x s \/ x = Ch.AMP \/ ref_alpha x = true.
Proof.
  induction s as [| c t Hc IH | t IH | c t Hc Hs IH] using cd_scan_ind.
  - intros [].
  - rewrite cd_body_special by exact Hc. intros H. apply in_app_or in H as [H | H].
    + right. by apply (special_text_alphabet c); [apply cd_special_att|].
    + destruct (IH H) as [Hin | Hr]; [left; by right | by right].
  - rewrite cd_body_cdend. intros H. apply in_app_or in H as [H | H].
    + vm_compute in H.
      destruct H as [<- | [<- | [<- | [<- | [<- | [<- | []]]]]]];
        first [ left; by left | right; by left | right; by right ].
    + destruct (IH H) as [Hin | Hr]; [left; apply in_or_app; by right | by right].
  - rewrite cd_body_keep by assumption. intros [<- | H]; [left; by left|].
    destruct (IH H) as [Hin | Hr]; [left; by right | by right].
Qed.

(** X13: escaping brings in nothing but the characters of references: every
    element of the text either function returns, the two quotes of an
    attribute value apart, is an element of the input, an ampersand, a hash,
    a semicolon, a digit or a lower-case letter. *)
Theorem escaped_text_is_input_and_references (s : list Z) :
  (exists a ws,
     _formatAttribute s = (inr ([Ch.QUOT] ++ a ++ [Ch.QUOT]), ws) /\
     forall x, In x a -> In x s \/ x = Ch.AMP \/ ref_alpha x = true) /\
  (exists t ws,
     _formatElementText s = (inr t, ws) /\
     forall x, In x t -> In x s \/ x = Ch.AMP \/ ref_alpha x = true).
Proof.
  split.
  - exists (att_body s), (att_warnings s). split; [apply formatAttribute_eq|].
    apply att_body_origin.
  - exists (cd_body s), (cd_warnings s). split; [apply formatElementText_eq|].
    apply cd_body_origin.
Qed.

(** ** Lines *)

Lemma attribute_no_line_feed (s : list Z) :
  ~ In Ch.LF s -> ~ In Ch.LF (escapeAttributeValue s).
Proof.
  intros Hs. rewrite escapeAttributeValue_eq. intros H.
  apply in_app_or in H as [[E | []] | H]; [discriminate|].
  apply in_app_or in H as [H | [E | []]]; [|discriminate].
  revert H. by apply att_body_keeps_out.
Qed.

Lemma text_no_line_feed (s : list Z) : ~ In Ch.LF s -> ~ In Ch.LF (escapeCharData s).
Proof. intros Hs. rewrite escapeCharData_eq. by apply cd_body_keeps_out. Qed.

Lemma indentation_no_line_feed (n : nat) : ~ In Ch.LF (indentation n).
Proof. intros H. apply times_in in H. vm_compute in H. lia. Qed.

Lemma not_in_app_LF (a b : list Z) : ~ In Ch.LF a /\ ~ In Ch.LF b -> ~ In Ch.LF (a ++ b).
Proof. intros [Ha Hb] H. apply in_app_or in H as [H | H]; auto. Qed.

Ltac no_line_feed :=
  repeat match goal with
  | |- ~ In Ch.LF (_ ++ _) => apply not_in_app_LF
  | |- _ /\ _ => split
  | |- ~ In Ch.LF (indentation _) => apply indentation_no_line_feed
  | |- ~ In Ch.LF (escapeAttributeValue _) => apply attribute_no_line_feed; assumption
  | |- ~ In Ch.LF (escapeCharData _) => apply text_no_line_feed; assumption
  | |- ~ In Ch.LF (u _) => vm_compute; lia
  | |- ~ In Ch.LF [Ch.QUOT] => vm_compute; lia
  end.

Lemma cell_line_no_line_feed (n : nat) (cv : list Z * list Z) :
  cell_has_no_line_feed cv -> ~ In Ch.LF (cell_line n cv).
Proof. intros [H1 H2]. unfold cell_line. no_line_feed. Qed.

Lemma row_lines_no_line_feed (n : nat) (r : RowEntry) :
  row_has_no_line_feed r -> Forall (fun l => ~ In Ch.LF l) (row_lines n r).
Proof.
  intros (H1 & H2 & H3). unfold row_lines.
  apply Forall_app. split; [constructor; [no_line_feed | constructor]|].
  apply Forall_app. split; [|constructor; [no_line_feed | constructor]].
  apply Forall_map. eapply Forall_impl; [exact H3|].
  intros cv Hcv. by apply cell_line_no_line_feed.
Qed.

Lemma rows_lines_no_line_feed (n : nat) (l : list RowEntry) :
  Forall row_has_no_line_feed l ->
  Forall (fun l => ~ In Ch.LF l) (concat (List.map (row_lines n) l)).
Proof.
  induction 1 as [|r l Hr _ IH]; [constructor|].
  cbn [List.map concat]. apply Forall_app. split; [by apply row_lines_no_line_feed | exact IH].
Qed.

Lemma table_lines_no_line_feed (n : nat) (namespace oid : list Z) (table : Table)
    (meta : option MetaTable) :
  ~ In Ch.LF namespace -> ~ In Ch.LF oid -> Forall row_has_no_line_feed table ->
  metatable_has_no_line_feed meta ->
  Forall (fun l => ~ In Ch.LF l) (table_lines n namespace oid table meta).
Proof.
  intros H1 H2 H3 H4. unfold table_lines.
  apply Forall_app. split; [constructor; [no_line_feed | constructor]|].
  apply Forall_app. split; [by apply rows_lines_no_line_feed|].
  apply Forall_app. split; [|constructor; [no_line_feed | constructor]].
  destruct meta as [m|]; [|constructor]. destruct H4 as [H4 H5]. unfold metatable_lines.
  apply Forall_app. split; [constructor; [no_line_feed | constructor]|].
  apply Forall_app. split.
  - apply Forall_map. eapply Forall_impl; [exact H4|].
    intros cv Hcv. by apply cell_line_no_line_feed.
  - apply Forall_app. split; [by apply rows_lines_no_line_feed|].
    constructor; [no_line_feed | constructor].
Qed.

Lemma document_lines_no_line_feed (db : MorkDatabase) :
  has_no_line_feed db -> Forall (fun l => ~ In Ch.LF l) (document_lines db).
Proof.
  intros H. unfold document_lines.
  apply Forall_app. split.
  { constructor; [vm_compute; lia|]. constructor; [vm_compute; lia | constructor]. }
  apply Forall_app. split; [|constructor; [vm_compute; lia | constructor]].
  unfold has_no_line_feed in H. induction H as [|t l Ht _ IH]; [constructor|].
  cbn [List.map concat]. apply Forall_app. split; [|exact IH].
  destruct Ht as (H1 & H2 & H3 & H4). by apply table_lines_no_line_feed.
Qed.

(** X14: when no namespace, id, column or value that the writer meets holds
    a line feed, the file written on a reliable sink is a sequence of lines,
    each without a line feed in it and each ended by one: the lines of the
    document, one element or one cell to a line. *)
Theorem document_is_one_tag_per_line (st : Storage) (db : MorkDatabase)
    (out : option string) (w : World) :
  reliable st -> has_no_line_feed db ->
  Forall (fun l => ~ In Ch.LF l) (document_lines db) /\
  files (snd (_outputHelper st db out w)) !! default "mork.xml"%string out
  = Some {| data := unlines (document_lines db); closed := true |}.
Proof.
  intros Hst Hdb. split; [by apply document_lines_no_line_feed|].
  rewrite (outputHelper_run st Hst). cbn [snd files]. apply lookup_insert_eq.
Qed.

Lemma sample_db_has_no_line_feed : has_no_line_feed sample_db.
Proof.
  unfold has_no_line_feed, sample_db. cbn [tables metaTables].
  repeat constructor; cbn [fst snd]; try (vm_compute; lia).
Qed.

Lemma document_is_one_tag_per_line_witness :
  reliable sound_storage /\ has_no_line_feed sample_db /\
  files (snd (_outputHelper sound_storage sample_db None empty_world)) !! "mork.xml"%string
  = Some {| data := unlines (document_lines sample_db); closed := true |}.
Proof.
  split; [exact reliable_sound_storage|]. split; [exact sample_db_has_no_line_feed|].
  apply (document_is_one_tag_per_line sound_storage sample_db None empty_world
           reliable_sound_storage sample_db_has_no_line_feed).
Defined.

(** * The replacement table, context by context *)

Lemma att_body_at_special (s1 s2 : list Z) (c : Z) :
  att_special c = true ->
  att_body (s1 ++ c :: s2) = att_body s1 ++ piece_text (Match [c]) ++ att_body s2 /\
  att_warnings (s1 ++ c :: s2) = att_warnings s1 ++ piece_warnings (Match [c]) ++ att_warnings s2.
Proof.
  intros H. rewrite att_body_app, att_warnings_app.
  unfold att_body at 2, att_warnings at 2. rewrite scan_att. cbn [List.map concat].
  by rewrite H, <- scan_att.
Qed.

Lemma cd_body_at_special (s1 s2 : list Z) (c : Z) :
  cd_special c = true ->
  cd_body (s1 ++ c :: s2) = cd_body s1 ++ piece_text (Match [c]) ++ cd_body s2 /\
  cd_warnings (s1 ++ c :: s2) = cd_warnings s1 ++ piece_warnings (Match [c]) ++ cd_warnings s2.
Proof.
  intros H.
  assert (Hn : ~ straddles s1 (c :: s2)).
  { intros [(p & q & _ & E) | (p & q & _ & E)]; injection E as -> _; discriminate. }
  rewrite (cd_body_app _ _ Hn), (cd_warnings_app _ _ Hn).
  unfold cd_body at 2, cd_warnings at 2. by rewrite (scan_cd_special c s2 H).
Qed.

Lemma cd_body_at_plain (s1 s2 : list Z) (c : Z) :
  cd_special c = false -> c <> Ch.RB -> c <> Ch.GT ->
  cd_body (s1 ++ c :: s2) = cd_body s1 ++ c :: cd_body s2 /\
  cd_warnings (s1 ++ c :: s2) = cd_warnings s1 ++ cd_warnings s2.
Proof.
  intros H H1 H2.
  assert (Hn : ~ straddles s1 (c :: s2)).
  { intros [(p & q & _ & E) | (p & q & _ & E)]; injection E as -> _; congruence. }
  rewrite (cd_body_app _ _ Hn), (cd_warnings_app _ _ Hn).
  unfold cd_body at 2, cd_warnings at 2.
  rewrite (scan_cd_keep c s2 H); [done|].
  unfold cdend. cbn [starts_with].
  destruct (Z.eqb_spec Ch.RB c) as [E | _]; [congruence | reflexivity].
Qed.

(** X15: [<] becomes [&lt;] and [&] becomes [&amp;] wherever they stand, in
    an attribute value as in character data, and no warning is issued for
    them; what stands before and after is escaped as on its own. *)
Theorem markup_characters_become_named_references (s1 s2 : list Z) (c : Z) (name : list Z) :
  (c = Ch.LT /\ name = u "&lt;") \/ (c = Ch.AMP /\ name = u "&amp;") ->
  (exists a1 w1 a2 w2,
     _formatAttribute s1 = (inr ([Ch.QUOT] ++ a1 ++ [Ch.QUOT]), w1) /\
     _formatAttribute s2 = (inr ([Ch.QUOT] ++ a2 ++ [Ch.QUOT]), w2) /\
     _formatAttribute (s1 ++ c :: s2)
     = (inr ([Ch.QUOT] ++ (a1 ++ name ++ a2) ++ [Ch.QUOT]), w1 ++ w2)) /\
  (exists t1 w1 t2 w2,
     _formatElementText s1 = (inr t1, w1) /\
     _formatElementText s2 = (inr t2, w2) /\
     _formatElementText (s1 ++ c :: s2) = (inr (t1 ++ name ++ t2), w1 ++ w2)).
Proof.
  intros Hc.
  assert (H : cd_special c = true /\ piece_text (Match [c]) = name /\
              piece_warnings (Match [c]) = []).
  { destruct Hc as [[-> ->] | [-> ->]]; unfold piece_text, piece_warnings.
    - by rewrite replacer_LT.
    - by rewrite replacer_AMP. }
  destruct H as (Hs & Ht & Hw). split.
  - exists (att_body s1), (att_warnings s1), (att_body s2), (att_warnings s2).
    rewrite !formatAttribute_eq. split; [reflexivity|]. split; [reflexivity|].
    destruct (att_body_at_special s1 s2 c (cd_special_att c Hs)) as [-> ->].
    by rewrite Ht, Hw.
  - exists (cd_body s1), (cd_warnings s1), (cd_body s2), (cd_warnings s2).
    rewrite !formatElementText_eq. split; [reflexivity|]. split; [reflexivity|].
    destruct (cd_body_at_special s1 s2 c Hs) as [-> ->]. by rewrite Ht, Hw.
Qed.

Lemma markup_characters_become_named_references_witness :
  ((Ch.LT = Ch.LT /\ u "&lt;" = u "&lt;") \/ (Ch.LT = Ch.AMP /\ u "&lt;" = u "&amp;")) /\
  _formatElementText (u "a" ++ Ch.LT :: u "b") = (inr (u "a&lt;b"), []).
Proof.
  assert (H : (Ch.LT = Ch.LT /\ u "&lt;" = u "&lt;") \/ (Ch.LT = Ch.AMP /\ u "&lt;" = u "&amp;"))
    by (left; split; reflexivity).
  split; [exact H|].
  destruct (markup_characters_become_named_references (u "a") (u "b") Ch.LT (u "&lt;") H)
    as (_ & (t1 & w1 & t2 & w2 & E1 & E2 & E)).
  rewrite E. clear E. vm_compute in E1, E2.
  injection E1 as <- <-. injection E2 as <- <-. reflexivity.
Defined.

(** X16: the double quote is where the two contexts part: wherever it
    stands, [_formatAttribute] writes [&quot;] for it and
    [_formatElementText] copies it; neither issues a warning for it. *)
Theorem double_quote_is_escaped_in_attributes_only (s1 s2 : list Z) :
  (exists a1 w1 a2 w2,
     _formatAttribute s1 = (inr ([Ch.QUOT] ++ a1 ++ [Ch.QUOT]), w1) /\
     _formatAttribute s2 = (inr ([Ch.QUOT] ++ a2 ++ [Ch.QUOT]), w2) /\
     _formatAttribute (s1 ++ Ch.QUOT :: s2)
     = (inr ([Ch.QUOT] ++ (a1 ++ u "&quot;" ++ a2) ++ [Ch.QUOT]), w1 ++ w2)) /\
  (exists t1 w1 t2 w2,
     _formatElementText s1 = (inr t1, w1) /\
     _formatElementText s2 = (inr t2, w2) /\
     _formatElementText (s1 ++ Ch.QUOT :: s2) = (inr (t1 ++ Ch.QUOT :: t2), w1 ++ w2)).
Proof.
  split.
  - exists (att_body s1), (att_warnings s1), (att_body s2), (att_warnings s2).
    rewrite !formatAttribute_eq. split; [reflexivity|]. split; [reflexivity|].
    destruct (att_body_at_special s1 s2 Ch.QUOT eq_refl) as [-> ->].
    unfold piece_text, piece_warnings. by rewrite replacer_QUOT.
  - exists (cd_body s1), (cd_warnings s1), (cd_body s2), (cd_warnings s2).
    rewrite !formatElementText_eq. split; [reflexivity|]. split; [reflexivity|].
    by destruct (cd_body_at_plain s1 s2 Ch.QUOT eq_refl) as [-> ->].
Qed.

(** X17: [cdend] is where they part the other way: wherever the three
    elements stand, [_formatElementText] writes them as two closing brackets
    and [&gt;], and [_formatAttribute] copies them; neither issues a warning
    for them. *)
Theorem cdend_is_escaped_in_character_data_only (s1 s2 : list Z) :
  (exists a1 w1 a2 w2,
     _formatAttribute s1 = (inr ([Ch.QUOT] ++ a1 ++ [Ch.QUOT]), w1) /\
     _formatAttribute s2 = (inr ([Ch.QUOT] ++ a2 ++ [Ch.QUOT]), w2) /\
     _formatAttribute (s1 ++ cdend ++ s2)
     = (inr ([Ch.QUOT] ++ (a1 ++ cdend ++ a2) ++ [Ch.QUOT]), w1 ++ w2)) /\
  (exists t1 w1 t2 w2,
     _formatElementText s1 = (inr t1, w1) /\
     _formatElementText s2 = (inr t2, w2) /\
     _formatElementText (s1 ++ cdend ++ s2) = (inr (t1 ++ u "]]&gt;" ++ t2), w1 ++ w2)).
Proof.
  split.
  - exists (att_body s1), (att_warnings s1), (att_body s2), (att_warnings s2).
    rewrite !formatAttribute_eq. split; [reflexivity|]. split; [reflexivity|].
    by rewrite !att_body_app, !att_warnings_app.
  - exists (cd_body s1), (cd_warnings s1), (cd_body s2), (cd_warnings s2).
    rewrite !formatElementText_eq. split; [reflexivity|]. split; [reflexivity|].
    rewrite cd_body_around_cdend, !cd_warnings_count, !illegal_warnings_app.
    reflexivity.
Qed.

(** * Indentation *)

Lemma times_succ (s : list Z) (n : nat) : times s (n + 1) = times s n ++ s.
Proof. unfold times. by rewrite replicate_add, concat_app; cbn; rewrite app_nil_r. Qed.

Lemma indented_deeper (n : nat) (l : list Z) : indented (n + 1) l -> indented n l.
Proof.
  intros [r ->]. exists (_indentStr ++ r). by rewrite times_succ, <- app_assoc.
Qed.

Lemma indented_here (n : nat) (r : list Z) : indented n (indentation n ++ r).
Proof. by exists r. Qed.

Lemma cell_line_indented (n : nat) (cv : list Z * list Z) : indented n (cell_line n cv).
Proof. apply indented_here. Qed.

Lemma row_lines_indented (n : nat) (r : RowEntry) : Forall (indented n) (row_lines n r).
Proof.
  unfold row_lines.
  apply Forall_app. split; [constructor; [apply indented_here | constructor]|].
  apply Forall_app. split; [|constructor; [apply indented_here | constructor]].
  apply Forall_map, Forall_forall. intros cv _. apply indented_deeper, cell_line_indented.
Qed.

Lemma rows_lines_indented (n : nat) (l : list RowEntry) :
  Forall (indented n) (concat (List.map (row_lines (n + 1)) l)).
Proof.
  induction l as [|r l IH]; [constructor|].
  cbn [List.map concat]. apply Forall_app. split; [|exact IH].
  eapply Forall_impl; [apply row_lines_indented|]. intros x. apply indented_deeper.
Qed.

Lemma metatable_lines_indented (n : nat) (meta : MetaTable) :
  Forall (indented n) (metatable_lines n meta).
Proof.
  unfold metatable_lines.
  apply Forall_app. split; [constructor; [apply indented_here | constructor]|].
  apply Forall_app. split.
  - apply Forall_map, Forall_forall. intros cv _. apply indented_deeper, cell_line_indented.
  - apply Forall_app. split; [apply rows_lines_indented|].
    constructor; [apply indented_here | constructor].
Qed.

Lemma table_lines_indented (n : nat) (namespace oid : list Z) (table : Table)
    (meta : option MetaTable) :
  Forall (indented n) (table_lines n namespace oid table meta).
Proof.
  unfold table_lines.
  apply Forall_app. split; [constructor; [apply indented_here | constructor]|].
  apply Forall_app. split; [apply rows_lines_indented|].
  apply Forall_app. split; [|constructor; [apply indented_here | constructor]].
  destruct meta as [m|]; [|constructor].
  eapply Forall_impl; [apply metatable_lines_indented|]. intros x. apply indented_deeper.
Qed.

Lemma line_feed_split (l r p q : list Z) :
  ~ In Ch.LF l -> l ++ Ch.LF :: r = p ++ Ch.LF :: q ->
  (p = l /\ q = r) \/ exists p', p = l ++ Ch.LF :: p' /\ r = p' ++ Ch.LF :: q.
Proof.
  revert p. induction l as [|a l IH]; intros p Hl E.
  - destruct p as [|z p]; cbn in E.
    + injection E as <-. by left.
    + injection E as <- ->. right. by exists p.
  - destruct p as [|z p]; cbn in E.
    + injection E as -> _. exfalso. apply Hl. by left.
    + injection E as <- E.
      destruct (IH p) as [[-> ->] | (p' & -> & ->)]; [|exact E| |].
      * intros H. apply Hl. by right.
      * by left.
      * right. by exists p'.
Qed.

Lemma unlines_indented (n : nat) (ls : list (list Z)) :
  Forall (fun l => ~ In Ch.LF l /\ indented n l) ls ->
  forall p q, unlines ls = p ++ Ch.LF :: q -> q <> [] -> indented n q.
Proof.
  induction 1 as [|l ls [Hl Hi] Hls IH]; intros p q E Hq.
  - rewrite unlines_nil in E. by destruct p.
  - rewrite unlines_cons in E. cbn [app] in E.
    apply line_feed_split in E as [[-> ->] | (p' & -> & E)]; [| |exact Hl].
    + destruct Hls as [|l2 ls [_ [r ->]] _]; [done|].
      rewrite unlines_cons, <- app_assoc. by eexists.
    + by apply (IH p').
Qed.

(** X18: when no namespace, id, column or value under a table holds a line
    feed, [_writeTable], called at some depth on a reliable sink, appends
    the lines of the table; none of them holds a line feed, and every one,
    the tags of the table, its rows, its cells and its metatable, begins
    with the indent of that depth, four spaces a level: in the text that is
    appended, the beginning and whatever follows a line feed stands behind
    that indent. Nothing under a table is written to the left of the
    table. *)
Theorem a_table_stays_behind_its_indent (st : Storage) (f : string)
    (namespace oid : list Z) (table : Table) (meta : option MetaTable) (n : nat)
    (m : gmap string File) (d : list Z) (log : list string) :
  reliable st ->
  ~ In Ch.LF namespace -> ~ In Ch.LF oid ->
  Forall row_has_no_line_feed table -> metatable_has_no_line_feed meta ->
  _writeTable st f namespace oid table meta n (opened m f d log)
  = (inr tt, opened m f (d ++ unlines (table_lines n namespace oid table meta))
                    (log ++ table_warnings namespace oid table meta)) /\
  Forall (fun l => ~ In Ch.LF l /\ indented n l) (table_lines n namespace oid table meta) /\
  lines_indented n (unlines (table_lines n namespace oid table meta)).
Proof.
  intros Hst H1 H2 H3 H4.
  assert (HF : Forall (fun l => ~ In Ch.LF l /\ indented n l)
                 (table_lines n namespace oid table meta)).
  { apply Forall_and. split;
      [by apply table_lines_no_line_feed | apply table_lines_indented]. }
  split; [by apply writeTable_run|]. split; [exact HF|]. split.
  - unfold table_lines. cbn [app]. rewrite unlines_cons, <- app_assoc. by eexists.
  - by apply unlines_indented.
Qed.

Lemma a_table_stays_behind_its_indent_witness :
  reliable sound_storage /\
  ~ In Ch.LF (u "ns") /\ ~ In Ch.LF (u "T") /\
  Forall row_has_no_line_feed [ (u "ns", u "r", [ (u "c", u "v") ]) ] /\
  metatable_has_no_line_feed None /\
  _writeTable sound_storage "f" (u "ns") (u "T") [ (u "ns", u "r", [ (u "c", u "v") ]) ]
              None 2 (opened ∅ "f" [] [])
  = (inr tt,
     opened ∅ "f"
       (unlines [ dq "        <table namespace='ns' id='T'>";
                  dq "            <row namespace='ns' id='r'>";
                  dq "                <cell column='c'>v</cell>";
                  dq "            </row>";
                  dq "        </table>" ]) []).
Proof.
  assert (H1 : ~ In Ch.LF (u "ns")) by (vm_compute; lia).
  assert (H2 : ~ In Ch.LF (u "T")) by (vm_compute; lia).
  assert (H3 : Forall row_has_no_line_feed [ (u "ns", u "r", [ (u "c", u "v") ]) ]).
  { repeat constructor; cbn [fst snd]; vm_compute; lia. }
  split; [exact reliable_sound_storage|]. do 3 (split; [assumption|]). split; [exact I|].
  destruct (a_table_stays_behind_its_indent sound_storage "f" (u "ns") (u "T")
              [ (u "ns", u "r", [ (u "c", u "v") ]) ] None 2 ∅ [] []
              reliable_sound_storage H1 H2 H3 I) as (E & _ & _).
  rewrite E. by vm_compute.
Defined.

(** * One pass *)

Lemma illegal_non_char (c : Z) : illegal c = in_class _non_char c.
Proof.
  destruct (in_class _non_char c) eqn:E.
  - apply non_char_spec in E. unfold illegal.
    rewrite !orb_true_iff, !andb_true_iff, !Z.leb_le, !Z.eqb_eq. lia.
  - destruct (illegal c) eqn:I; [|reflexivity].
    assert (H : in_class _non_char c = true); [|congruence].
    apply non_char_spec. unfold illegal in I.
    rewrite !orb_true_iff, !andb_true_iff, !Z.leb_le, !Z.eqb_eq in I. lia.
Qed.

Lemma hex_digit_not_zero (d : Z) : 0 < d -> hex_digit d <> 48.
Proof. intros H. unfold hex_digit. destruct (d <? 10); lia. Qed.

Lemma hex_go_no_leading_zero (k : nat) :
  forall n acc, 0 < n < 2 ^ Z.of_nat (S k) ->
  exists d h, hex_go (S k) n acc = d :: h ++ acc /\ d <> 48.
Proof.
  induction k as [|k IH]; intros n acc Hn.
  - assert (Hq : n / 16 = 0) by (apply Z.div_small; cbn in Hn; lia).
    assert (Hm : n mod 16 = n) by (apply Z.mod_small; cbn in Hn; lia).
    rewrite hex_go_S, Hq, Hm. cbn [Z.eqb].
    exists (hex_digit n), []. split; [reflexivity | apply hex_digit_not_zero; lia].
  - rewrite hex_go_S.
    destruct (Z.eqb_spec (n / 16) 0) as [Hq|Hq].
    + exists (hex_digit (n mod 16)), []. split; [reflexivity|].
      apply hex_digit_not_zero.
      pose proof (Z.div_mod n 16 ltac:(lia)). lia.
    + destruct (IH (n / 16) (hex_digit (n mod 16) :: acc)) as (d & h & Hh & Hd).
      { assert (0 <= n / 16) by (apply Z.div_pos; lia).
        split; [lia|].
        apply Z.div_lt_upper_bound; [lia|].
        rewrite (Nat2Z.inj_succ (S k)), Z.pow_succ_r in Hn by lia. lia. }
      exists d, (h ++ [hex_digit (n mod 16)]). split; [|exact Hd].
      rewrite Hh. by rewrite <- app_assoc.
Qed.

Lemma format_x_no_leading_zero (n : Z) :
  0 < n -> exists d h, format_x n = d :: h /\ d <> 48.
Proof.
  intros Hn. unfold format_x.
  destruct (hex_go_no_leading_zero (Z.to_nat (Z.log2 n)) n []) as (d & h & Hh & Hd).
  - split; [exact Hn|].
    rewrite Nat2Z.inj_succ, Z2Nat.id by apply Z.log2_nonneg.
    apply Z.log2_spec. lia.
  - exists d, h. by rewrite Hh, app_nil_r.
Qed.

Lemma att_body_pass (s : list Z) : att_body s = attribute_pass s.
Proof.
  induction s as [|c t IH]; [reflexivity|].
  rewrite att_body_cons, IH. cbn [attribute_pass flat_map]. f_equal.
  rewrite illegal_non_char. unfold att_special, piece_text.
  destruct (in_class _non_char c) eqn:En.
  - by rewrite (replacer_non_char c En).
  - cbn [orb].
    destruct (Z.eqb_spec c Ch.LT) as [-> | _]; [by rewrite replacer_LT|].
    destruct (Z.eqb_spec c Ch.AMP) as [-> | _]; [by rewrite replacer_AMP|].
    destruct (Z.eqb_spec c Ch.QUOT) as [-> | _]; [by rewrite replacer_QUOT|].
    reflexivity.
Qed.

Lemma character_data_pass_cons (c : Z) (t : list Z) :
  character_data_pass (c :: t) =
    if illegal c then numeric_reference c ++ character_data_pass t
    else if c =? Ch.LT then u "&lt;" ++ character_data_pass t
    else if c =? Ch.AMP then u "&amp;" ++ character_data_pass t
    else if starts_with cdend (c :: t)
         then u "]]&gt;" ++ character_data_pass (drop 3 (c :: t))
         else c :: character_data_pass t.
Proof.
  cbn [character_data_pass].
  destruct (illegal c); [reflexivity|].
  destruct (c =? Ch.LT); [reflexivity|].
  destruct (c =? Ch.AMP); [reflexivity|].
  unfold cdend. cbn [starts_with drop].
  rewrite (Z.eqb_sym Ch.RB c).
  destruct t as [|c2 [|c3 t']].
  - by destruct (c =? Ch.RB).
  - rewrite (Z.eqb_sym Ch.RB c2). by destruct (c =? Ch.RB), (c2 =? Ch.RB).
  - rewrite (Z.eqb_sym Ch.RB c2), (Z.eqb_sym Ch.GT c3).
    by destruct (c =? Ch.RB), (c2 =? Ch.RB), (c3 =? Ch.GT).
Qed.

Lemma cd_body_pass (s : list Z) : cd_body s = character_data_pass s.
Proof.
  induction s as [| c t Hc IH | t IH | c t Hc Hs IH] using cd_scan_ind.
  - reflexivity.
  - rewrite (cd_body_special c t Hc), IH, character_data_pass_cons, illegal_non_char.
    unfold cd_special in Hc. unfold piece_text.
    destruct (in_class _non_char c) eqn:En.
    + by rewrite (replacer_non_char c En).
    + cbn [orb] in Hc.
      destruct (Z.eqb_spec c Ch.LT) as [-> | _]; [by rewrite replacer_LT|].
      destruct (Z.eqb_spec c Ch.AMP) as [-> | _]; [by rewrite replacer_AMP|].
      discriminate.
  - rewrite cd_body_cdend, IH. reflexivity.
  - rewrite (cd_body_keep c t Hc Hs), IH, character_data_pass_cons, illegal_non_char, Hs.
    apply cd_special_spec in Hc as (-> & H1 & H2).
    destruct (Z.eqb_spec c Ch.LT) as [E | _]; [done|].
    destruct (Z.eqb_spec c Ch.AMP) as [E | _]; [done|].
    reflexivity.
Qed.

Lemma illegal_warnings_pass (s : list Z) : illegal_warnings s = pass_warnings s.
Proof.
  unfold illegal_warnings, pass_warnings.
  induction s as [|c t IH]; [reflexivity|].
  cbn [List.filter flat_map]. rewrite illegal_non_char.
  destruct (in_class _non_char c); cbn [length replicate app]; by rewrite IH.
Qed.

(** C6, as the specification words it, fails on an apostrophe in an
    attribute value: section 4.1 counts it among the significant characters
    of that context, and the pass replaces it not once but never. *)
Lemma apostrophe_is_not_replaced_in_an_attribute :
  _formatAttribute [97; Ch.APOS; 98] = (inr ([Ch.QUOT] ++ [97; Ch.APOS; 98] ++ [Ch.QUOT]), []).
Proof. by vm_compute. Qed.

(** C6 (amended): escaping is one pass from left to right. For every string
    the text [_formatAttribute] returns is, between two double quotes, what
    [attribute_pass] writes: for each illegal element its numeric reference,
    for each [<], [&] and double quote its named reference, and every other
    element, the apostrophe among them, as it is. The text
    [_formatElementText] returns is what [character_data_pass] writes: the
    same for illegal elements, [<] and [&], two closing brackets and [&gt;]
    for each [cdend] met on the way, and every other element as it is. Each
    element of the subject is consumed once and nothing that has been written
    is read again: [&] alone gives [&amp;], and [&amp;amp;] only comes from
    escaping [&amp;], a second call. One warning is issued per illegal
    element. *)
Theorem escaping_is_single_pass (s : list Z) :
  _formatAttribute s = (inr ([Ch.QUOT] ++ attribute_pass s ++ [Ch.QUOT]), pass_warnings s) /\
  _formatElementText s = (inr (character_data_pass s), pass_warnings s) /\
  _formatElementText (u "&") = (inr (u "&amp;"), []) /\
  _formatElementText (u "&amp;") = (inr (u "&amp;amp;"), []) /\
  _formatElementText (text_of (_formatElementText (u "&"))) = (inr (u "&amp;amp;"), []).
Proof.
  split; [|split].
  - by rewrite formatAttribute_eq, att_body_pass, att_warnings_count, illegal_warnings_pass.
  - by rewrite formatElementText_eq, cd_body_pass, cd_warnings_count, illegal_warnings_pass.
  - repeat split; by vm_compute.
Qed.

(** C2, as the specification words it, fails in character data on an
    illegal element that stands between two closing brackets and [>]: with
    it the [>] is copied, without it the three elements are a [cdend] and
    the [>] becomes [&gt;]. The rest of the string is not escaped as it
    would be without that element. *)
Lemma illegal_character_inside_cdend :
  _formatElementText (u "]]" ++ 0 :: u ">") = (inr (u "]]&#x0;>"), [invalid_xml_warning]) /\
  _formatElementText (u "]]" ++ u ">") = (inr (u "]]&gt;"), []).
Proof. split; by vm_compute. Qed.

(** C2 (amended): an element [c] outside the Char production, anywhere in a
    string, is replaced in both contexts by [&#x], the hexadecimal digits of
    [c] and a semicolon: the digits are lower-case hexadecimal digits, at
    least one, with no leading zero, and they denote [c]; for U+0000 that is
    [&#x0;]. One warning is issued for it. What comes before and what comes
    after is escaped as it is on its own, and both functions return a text,
    no exception. In an attribute value that is also how the string without
    [c] is escaped; in character data it is so if and only if taking [c]
    away does not bring together the elements of a [cdend]. *)
Theorem illegal_character_yields_reference (s1 s2 : list Z) (c : Z) :
  0 <= c <= 0x10FFFF -> xml_char c = false ->
  (format_x c <> [] /\ forallb is_hex_digit (format_x c) = true /\
   hex_value (format_x c) = c /\ (c <> 0 -> head (format_x c) <> Some 48)) /\
  u "&#x" ++ format_x 0 ++ u ";" = u "&#x0;" /\
  (exists a1 w1 a2 w2,
     _formatAttribute s1 = (inr ([Ch.QUOT] ++ a1 ++ [Ch.QUOT]), w1) /\
     _formatAttribute s2 = (inr ([Ch.QUOT] ++ a2 ++ [Ch.QUOT]), w2) /\
     _formatAttribute (s1 ++ c :: s2)
     = (inr ([Ch.QUOT] ++ (a1 ++ (u "&#x" ++ format_x c ++ u ";") ++ a2) ++ [Ch.QUOT]),
        w1 ++ invalid_xml_warning :: w2) /\
     _formatAttribute (s1 ++ s2) = (inr ([Ch.QUOT] ++ (a1 ++ a2) ++ [Ch.QUOT]), w1 ++ w2)) /\
  (exists t1 w1 t2 w2,
     _formatElementText s1 = (inr t1, w1) /\
     _formatElementText s2 = (inr t2, w2) /\
     _formatElementText (s1 ++ c :: s2)
     = (inr (t1 ++ (u "&#x" ++ format_x c ++ u ";") ++ t2), w1 ++ invalid_xml_warning :: w2) /\
     (_formatElementText (s1 ++ s2) = (inr (t1 ++ t2), w1 ++ w2) <-> ~ straddles s1 s2)).
Proof.
  intros Hc Hx.
  assert (Hn : in_class _non_char c = true) by (by apply non_char_xml_char).
  split.
  { destruct (format_x_digits c ltac:(lia)) as (H1 & H2 & H3).
    do 3 (split; [assumption|]). intros Hz.
    destruct (format_x_no_leading_zero c ltac:(lia)) as (d & h & -> & Hd).
    cbn [head]. congruence. }
  split; [reflexivity|]. split.
  - exists (att_body s1), (att_warnings s1), (att_body s2), (att_warnings s2).
    rewrite !formatAttribute_eq. split; [reflexivity|]. split; [reflexivity|]. split.
    + change (c :: s2) with ([c] ++ s2).
      rewrite !att_body_app, !att_warnings_app.
      destruct (att_single_non_char c Hn) as [-> ->]. reflexivity.
    + by rewrite att_body_app, att_warnings_app.
  - exists (cd_body s1), (cd_warnings s1), (cd_body s2), (cd_warnings s2).
    rewrite !formatElementText_eq. split; [reflexivity|]. split; [reflexivity|]. split.
    + assert (Hs : ~ straddles s1 (c :: s2)).
      { apply non_char_spec in Hn.
        intros [(p & q & _ & E) | (p & q & _ & E)]; injection E as -> _;
          unfold Ch.GT, Ch.RB in Hn; lia. }
      rewrite (cd_body_app _ _ Hs), (cd_warnings_app _ _ Hs).
      destruct (cd_single_non_char c s2 Hn) as [-> ->]. reflexivity.
    + split.
      * intros E Hs. apply (cd_body_straddled s1 s2 Hs). congruence.
      * intros Hs. by rewrite (cd_body_app _ _ Hs), (cd_warnings_app _ _ Hs).
Qed.

Lemma illegal_character_yields_reference_witness :
  0 <= 0 <= 0x10FFFF /\ xml_char 0 = false /\
  _formatElementText (u "a" ++ 0 :: u "b") = (inr (u "a&#x0;b"), [invalid_xml_warning]).
Proof.
  split; [lia|]. split; [reflexivity|].
  destruct (illegal_character_yields_reference (u "a") (u "b") 0 ltac:(lia) eq_refl)
    as (_ & _ & _ & (t1 & w1 & t2 & w2 & E1 & E2 & E & _)).
  rewrite E. clear E. vm_compute in E1, E2.
  injection E1 as <- <-. injection E2 as <- <-. reflexivity.
Defined.
